(** * BrandCurator: the catalogue handlers of [App.tsx]

    A shallow embedding of the store handlers of [src/App.tsx]
    (enrichment merge, store creation and import, deletion, and the
    facet filter with its sort), followed by the properties the
    design document states about them.

    Conventions of the embedding:
    - a JavaScript string is a [string]; a character is one code unit,
      restricted to the Latin-1 range (one [ascii] per code unit);
    - a property that the code guards against being [undefined]
      ([!s.website], [!!store.isArchived], [x || dflt]) is an [option];
    - a plain object used as a dictionary ([customFields]) is a [gmap]
      of its own entries, and a read [o[field]] goes through
      [getProperty], which also finds the members every plain object
      inherits from [Object.prototype]; a [Set<string>] is a [gset];
    - a callback that can raise a [TypeError] has an [Outcome]; the
      functions with the suffix [Js] keep the error, their namesakes
      without it give the value on the path that raises nothing;
    - the functions imported from [./utils/*] are not part of the
      sources; they are the fields of the interfaces below. *)

From Stdlib Require Import ZArith Ascii String List Bool Lia.
From Stdlib Require Import Sorting.Sorted Sorting.Permutation.
From Stdlib Require OrderedTypeEx.
From stdpp Require Import base option list gmap strings sorting.

Local Open Scope string_scope.
Local Open Scope Z_scope.

(** ** JavaScript string primitives *)

Module JsString.

(** [WhiteSpace] and [LineTerminator] code units below 256: TAB, LF,
    VT, FF, CR, SP and NBSP. These are what [String.prototype.trim]
    strips. *)
Definition isWhiteSpace (c : ascii) : bool :=
  let n := N_of_ascii c in
  ((9 <=? n) && (n <=? 13) || (n =? 32) || (n =? 160))%N.

Fixpoint trimStart (s : string) : string :=
  match s with
  | String c r => if isWhiteSpace c then trimStart r else s
  | EmptyString => EmptyString
  end.

Fixpoint trimEnd (s : string) : string :=
  match s with
  | EmptyString => EmptyString
  | String c r =>
      match trimEnd r with
      | EmptyString => if isWhiteSpace c then EmptyString else String c EmptyString
      | r' => String c r'
      end
  end.

(** [s.trim()] *)
Definition trim (s : string) : string := trimEnd (trimStart s).

(** Lower-case mapping of one code unit: A-Z, and the Latin-1 capitals
    U+00C0..U+00DE except the multiplication sign U+00D7. *)
Definition lowerChar (c : ascii) : ascii :=
  let n := N_of_ascii c in
  if ((65 <=? n) && (n <=? 90) || (192 <=? n) && (n <=? 222) && negb (n =? 215))%N
  then ascii_of_N (n + 32) else c.

(** [s.toLowerCase()] *)
Fixpoint toLowerCase (s : string) : string :=
  match s with
  | EmptyString => EmptyString
  | String c r => String (lowerChar c) (toLowerCase r)
  end.

(** [hay.includes(needle)] on strings: [needle] occurs in [hay]. *)
Fixpoint includes (hay needle : string) : bool :=
  String.prefix needle hay
  || match hay with
     | EmptyString => false
     | String _ r => includes r needle
     end.

(** The [Canonicalize] operation of a case-insensitive, non-unicode
    regular expression: the upper-case mapping, kept only when it stays
    a single code unit and does not send a non-ASCII unit to ASCII.
    The two Latin-1 letters whose capital lies beyond U+00FF (micro sign
    and y with diaeresis) fold to units that no other Latin-1 unit
    folds to, so they are left in place. *)
Definition canonicalize (c : ascii) : ascii :=
  let n := N_of_ascii c in
  if ((97 <=? n) && (n <=? 122) || (224 <=? n) && (n <=? 254) && negb (n =? 247))%N
  then ascii_of_N (n - 32) else c.

(** A literal pattern anchored at both ends, matched with the [i] flag:
    [/^pat$/i.test(s)]. *)
Fixpoint matchLiteralCI (pat s : string) : bool :=
  match pat, s with
  | EmptyString, EmptyString => true
  | String p pat', String c s' =>
      Ascii.eqb (canonicalize p) (canonicalize c) && matchLiteralCI pat' s'
  | _, _ => false
  end.

(** Truthiness of a possibly-undefined string: [!!x]. *)
Definition truthy (x : option string) : bool :=
  match x with
  | Some (String _ _) => true
  | _ => false
  end.

(** Truthiness of a possibly-undefined boolean. *)
Definition truthyb (x : option bool) : bool :=
  match x with
  | Some b => b
  | None => false
  end.

(** [xs.includes(x)] on an array of strings. *)
Definition arrayIncludes (xs : list string) (x : string) : bool :=
  existsb (String.eqb x) xs.

End JsString.

Import JsString.

(** ** Data model ([./types], as the handlers use it) *)

Record AddedBy := {
  addedBy_userId : string;
  addedBy_userName : string
}.

(** Modelled from the spec: [./types] is not part of the sources; a
    private note is a per-user annotation. The handlers only ever
    create the empty list of them. *)
Record PrivateNote := {
  note_userId : string;
  note_text : string
}.

Record Store := {
  id : string;
  collectionId : string;
  store_name : string;
  description : option string;
  website : option string;
  country : string;
  city : string;
  tags : list string;
  priceRange : string;
  onSale : option bool;
  isArchived : option bool;
  rating : Z;
  sustainability : string;
  customFields : gmap string (list string);
  addedBy : AddedBy;
  favoritedBy : list string;
  privateNotes : list PrivateNote;
  imageUrl : option string
}.

Record Folio := {
  folio_id : string;
  folio_name : string;
  themeId : string;
  storeIds : list string;
  folio_createdAt : string
}.

Record Collection := {
  coll_id : string;
  ownerId : string;
  coll_name : string;
  template : string;
  stores : list Store;
  folios : option (list Folio);
  coll_createdAt : string
}.

Record User := {
  userId : string;
  firstName : string;
  lastName : string
}.

Record StoreFilters := {
  search : string;
  filter_tags : list string;
  filter_onSale : bool;
  priceRanges : list string;
  filter_customFields : gmap string (list string)
}.

(** Object spread with one property replaced: [{ ...s, website: w }]. *)
Definition set_website (w : option string) (s : Store) : Store :=
  {| id := id s; collectionId := collectionId s; store_name := store_name s;
     description := description s; website := w; country := country s;
     city := city s; tags := tags s; priceRange := priceRange s;
     onSale := onSale s; isArchived := isArchived s; rating := rating s;
     sustainability := sustainability s; customFields := customFields s;
     addedBy := addedBy s; favoritedBy := favoritedBy s;
     privateNotes := privateNotes s; imageUrl := imageUrl s |}.

Definition set_description (d : option string) (s : Store) : Store :=
  {| id := id s; collectionId := collectionId s; store_name := store_name s;
     description := d; website := website s; country := country s;
     city := city s; tags := tags s; priceRange := priceRange s;
     onSale := onSale s; isArchived := isArchived s; rating := rating s;
     sustainability := sustainability s; customFields := customFields s;
     addedBy := addedBy s; favoritedBy := favoritedBy s;
     privateNotes := privateNotes s; imageUrl := imageUrl s |}.

Definition set_stores (l : list Store) (c : Collection) : Collection :=
  {| coll_id := coll_id c; ownerId := ownerId c; coll_name := coll_name c;
     template := template c; stores := l; folios := folios c;
     coll_createdAt := coll_createdAt c |}.

Definition set_folios (fs : option (list Folio)) (c : Collection) : Collection :=
  {| coll_id := coll_id c; ownerId := ownerId c; coll_name := coll_name c;
     template := template c; stores := stores c; folios := fs;
     coll_createdAt := coll_createdAt c |}.

Definition set_storeIds (ids : list string) (f : Folio) : Folio :=
  {| folio_id := folio_id f; folio_name := folio_name f; themeId := themeId f;
     storeIds := ids; folio_createdAt := folio_createdAt f |}.

Definition set_filter_tags (ts : list string) (f : StoreFilters) : StoreFilters :=
  {| search := search f; filter_tags := ts; filter_onSale := filter_onSale f;
     priceRanges := priceRanges f; filter_customFields := filter_customFields f |}.

Definition set_priceRanges (ps : list string) (f : StoreFilters) : StoreFilters :=
  {| search := search f; filter_tags := filter_tags f; filter_onSale := filter_onSale f;
     priceRanges := ps; filter_customFields := filter_customFields f |}.

(** ** The imported utilities

    [./utils/textFormatter], [./utils/priceMapper], [./utils/localization]
    and [./utils/validation] are outside the sources: the handlers are
    embedded over any implementation of them. *)

Class TextFormatter := {
  compareStoreNames : string → string → Z;
  formatDescription : string → string
}.

Class PriceMapper := {
  getPriceBucket : string → string
}.

Class Localization := {
  t : string → string
}.

Class Limits := {
  MAX_STORES_PER_COLLECTION : nat
}.

(** ** Enrichment merge ([handleEnrichComplete]) *)

(** [/^(none|n\/a|na|false)$/i.test(x)] *)
Definition sentinelRe (x : string) : bool :=
  matchLiteralCI "none" x || matchLiteralCI "n/a" x
  || matchLiteralCI "na" x || matchLiteralCI "false" x.

(** [!s.website || /^(none|n\/a|na|false)$/i.test(s.website.trim())] *)
Definition websiteEmpty (s : Store) : bool :=
  match website s with
  | Some w => negb (truthy (Some w)) || sentinelRe (trim w)
  | None => true
  end.

(** [!s.description || s.description.length < 10 || /.../i.test(s.description.trim())] *)
Definition descEmpty (s : Store) : bool :=
  match description s with
  | Some d =>
      negb (truthy (Some d)) || (Z.of_nat (String.length d) <? 10)
      || sentinelRe (trim d)
  | None => true
  end.

Section Enrichment.
Context `{TF : TextFormatter}.

(** The body of the [map] callback once a matching entry was found. *)
Definition mergeEnrichment (s enriched : Store) : Store :=
  let updated := s in
  let updated :=
    if truthy (website enriched) && websiteEmpty s
    then set_website (website enriched) updated else updated in
  let updated :=
    match description enriched with
    | Some d =>
        if truthy (Some d) && descEmpty s
        then set_description (Some (formatDescription d)) updated else updated
    | None => updated
    end in
  updated.

(** [enrichedStores.find(e => e.id === s.id)], then the merge. *)
Definition enrichStore (enrichedStores : list Store) (s : Store) : Store :=
  match List.find (fun e => String.eqb (id e) (id s)) enrichedStores with
  | None => s
  | Some enriched => mergeEnrichment s enriched
  end.

Definition enrichStores (enrichedStores existing : list Store) : list Store :=
  List.map (enrichStore enrichedStores) existing.

End Enrichment.

(** ** Store creation ([handleAddStore]) and import ([ImportModal.onComplete]) *)

(** [Partial<Store>] as the add form hands it over. The properties the
    handler overwrites unconditionally with context ([id],
    [collectionId], [addedBy], [favoritedBy], [privateNotes]) are not
    listed; the name is what [as Store] asserts to be present. *)
Record PartialStore := {
  p_store_name : string;
  p_description : option string;
  p_website : option string;
  p_country : option string;
  p_city : option string;
  p_tags : option (list string);
  p_priceRange : option string;
  p_onSale : option bool;
  p_isArchived : option bool;
  p_rating : option Z;
  p_sustainability : option string;
  p_customFields : option (gmap string (list string));
  p_imageUrl : option string
}.

(** A parsed row,
    [Omit<Store, 'collectionId' | 'addedBy' | 'favoritedBy' | 'privateNotes'>];
    [customFields] is the one property the import guards with [|| {}]. *)
Record ImportedStore := {
  i_id : string;
  i_store_name : string;
  i_description : option string;
  i_website : option string;
  i_country : string;
  i_city : string;
  i_tags : list string;
  i_priceRange : string;
  i_onSale : option bool;
  i_isArchived : option bool;
  i_rating : Z;
  i_sustainability : string;
  i_customFields : option (gmap string (list string));
  i_imageUrl : option string
}.

(** [`${user.firstName} ${user.lastName}`.trim()] *)
Definition userName (user : User) : string :=
  trim (firstName user ++ " " ++ lastName user).

Definition addedByOf (user : User) : AddedBy :=
  {| addedBy_userId := userId user; addedBy_userName := userName user |}.

(** [x || ''] on a possibly-undefined string. *)
Definition orEmpty (x : option string) : string :=
  match x with
  | Some (String c r) => String c r
  | _ => EmptyString
  end.

(** The object literal of [handleAddStore]; [uuid] is the value of
    [crypto.randomUUID()]. Later properties of the literal win over the
    spread [...storeData]. *)
Definition newStore (uuid : string) (activeCollection : Collection) (user : User)
    (storeData : PartialStore) : Store :=
  {| id := uuid;
     collectionId := coll_id activeCollection;
     store_name := p_store_name storeData;
     description := Some "";
     website := p_website storeData;
     country := "";
     city := "";
     tags := default [] (p_tags storeData);
     priceRange := orEmpty (p_priceRange storeData);
     onSale := p_onSale storeData;
     isArchived := p_isArchived storeData;
     rating := 0;
     sustainability := "";
     customFields := ∅;
     addedBy := addedByOf user;
     favoritedBy := [];
     privateNotes := [];
     imageUrl := p_imageUrl storeData |}.

Section StoreImport.
Context `{PM : PriceMapper} `{LM : Limits}.

(** The callback of [stores.map] in [ImportModal.onComplete]; [cid] is
    the [id] argument of [onComplete]. *)
Definition importStore (uuid cid : string) (user : User) (s : ImportedStore) : Store :=
  {| id := uuid;
     collectionId := cid;
     store_name := i_store_name s;
     description := i_description s;
     website := i_website s;
     country := i_country s;
     city := i_city s;
     tags := List.map (fun tg => trim (toLowerCase tg)) (i_tags s);
     priceRange := getPriceBucket (i_priceRange s);
     onSale := i_onSale s;
     isArchived := i_isArchived s;
     rating := i_rating s;
     sustainability := i_sustainability s;
     customFields := default ∅ (i_customFields s);
     addedBy := addedByOf user;
     favoritedBy := [];
     privateNotes := [];
     imageUrl := i_imageUrl s |}.

(** [fullStores]: the [k]-th row receives the [k]-th generated id. *)
Definition fullStores (uuid : nat → string) (cid : string) (user : User)
    (rows : list ImportedStore) : list Store :=
  imap (fun k s => importStore (uuid k) cid user s) rows.

(** The collection handed to [saveCollection]; [replace] is
    [importModalConfig.mode === 'import']. *)
Definition importInto (replace : bool) (uuid : nat → string) (cid : string)
    (user : User) (rows : list ImportedStore) (targetColl : Collection) : Collection :=
  let baseStores := if replace then [] else stores targetColl in
  set_stores
    (firstn MAX_STORES_PER_COLLECTION (baseStores ++ fullStores uuid cid user rows))
    targetColl.

End StoreImport.

(** ** Application state and the deletion handlers *)

(** The part of the component state the catalogue handlers read or
    write. Modal flags and the store being edited are view state. *)
Record AppState := {
  user : option User;
  collections : list Collection;
  activeCollectionId : option string;
  showArchived : bool;
  filters : StoreFilters;
  selectedStoreIds : gset string
}.

Definition set_collections (cs : list Collection) (st : AppState) : AppState :=
  {| user := user st; collections := cs;
     activeCollectionId := activeCollectionId st;
     showArchived := showArchived st; filters := filters st;
     selectedStoreIds := selectedStoreIds st |}.

Definition set_selectedStoreIds (sel : gset string) (st : AppState) : AppState :=
  {| user := user st; collections := collections st;
     activeCollectionId := activeCollectionId st;
     showArchived := showArchived st; filters := filters st;
     selectedStoreIds := sel |}.

(** [collections.find(c => c.id === activeCollectionId) || null] *)
Definition activeCollection (st : AppState) : option Collection :=
  match activeCollectionId st with
  | Some cid => List.find (fun c => String.eqb (coll_id c) cid) (collections st)
  | None => None
  end.

(** The state update of [saveCollection]; the write to the remote
    database is outside the model. *)
Definition saveCollection (updatedCollection : Collection) (st : AppState) : AppState :=
  match user st with
  | None => st
  | Some _ =>
      let same c := String.eqb (coll_id c) (coll_id updatedCollection) in
      let prev := collections st in
      set_collections
        (if existsb same prev
         then List.map (fun c => if same c then updatedCollection else c) prev
         else prev ++ [updatedCollection])
        st
  end.

(** The collection [handleDeleteStore] saves. *)
Definition deleteStore (storeId : string) (c : Collection) : Collection :=
  set_stores (List.filter (fun s => negb (String.eqb (id s) storeId)) (stores c)) c.

Definition handleDeleteStore (storeId : string) (st : AppState) : AppState :=
  match activeCollection st with
  | None => st
  | Some c => saveCollection (deleteStore storeId c) st
  end.

(** The collection [handleBulkDelete] saves. *)
Definition bulkDelete (selected : gset string) (c : Collection) : Collection :=
  let updatedStores :=
    List.filter (fun s => negb (bool_decide (id s ∈ selected))) (stores c) in
  let updatedFolios :=
    List.map
      (fun f => set_storeIds
         (List.filter (fun i => negb (bool_decide (i ∈ selected))) (storeIds f)) f)
      (default [] (folios c)) in
  set_folios (Some updatedFolios) (set_stores updatedStores c).

Definition handleBulkDelete (st : AppState) : AppState :=
  match activeCollection st with
  | None => st
  | Some c =>
      set_selectedStoreIds ∅ (saveCollection (bulkDelete (selectedStoreIds st) c) st)
  end.

Definition handleAddStore (uuid : string) (storeData : PartialStore)
    (st : AppState) : AppState :=
  match activeCollection st, user st with
  | Some c, Some u =>
      saveCollection (set_stores (stores c ++ [newStore uuid c u storeData]) c) st
  | _, _ => st
  end.

Definition handleEnrichComplete `{TF : TextFormatter} (enrichedStores : list Store)
    (st : AppState) : AppState :=
  match activeCollection st with
  | None => st
  | Some c =>
      set_selectedStoreIds ∅
        (saveCollection (set_stores (enrichStores enrichedStores (stores c)) c) st)
  end.

(** ** Facet filter and sort ([filteredStores]) *)

(** [Array.prototype.sort(comparefn)]: the sort is stable, and for a
    consistent comparator its result is the unique stable arrangement;
    it is embedded as the stable insertion sort. *)
Fixpoint insertBy {A} (cmp : A → A → Z) (x : A) (l : list A) : list A :=
  match l with
  | [] => [x]
  | y :: l' => if cmp x y <=? 0 then x :: y :: l' else y :: insertBy cmp x l'
  end.

Definition sortBy {A} (cmp : A → A → Z) (l : list A) : list A :=
  List.fold_right (insertBy cmp) [] l.

(** The outcome of a callback that may raise a [TypeError]. *)
Inductive Outcome (A : Type) : Type :=
  | Returns (a : A)
  | Throws.

Arguments Returns {A} a.
Arguments Throws {A}.

(** The names of the members of [Object.prototype]; every plain object
    ([{}], or an object read from JSON) inherits them. *)
Definition objectPrototypeMembers : list string :=
  ["constructor"; "hasOwnProperty"; "isPrototypeOf"; "propertyIsEnumerable";
   "toLocaleString"; "toString"; "valueOf"; "__proto__";
   "__defineGetter__"; "__defineSetter__"; "__lookupGetter__"; "__lookupSetter__"].

(** What a read [o[field]] of a dictionary of string arrays finds: the
    array of the object's own entry, else the inherited member of that
    name (a function, or [Object.prototype] itself for [__proto__]),
    else [undefined]. *)
Inductive PropertyValue : Type :=
  | OwnArray (values : list string)
  | InheritedMember
  | Undefined.

Definition getProperty (o : gmap string (list string)) (field : string)
    : PropertyValue :=
  match o !! field with
  | Some values => OwnArray values
  | None => if arrayIncludes objectPrototypeMembers field then InheritedMember
            else Undefined
  end.

(** [l.every(callback)]: the callback is called in order, up to the
    first element on which it returns [false] or raises. *)
Fixpoint everyJs {A} (callback : A → Outcome bool) (l : list A) : Outcome bool :=
  match l with
  | [] => Returns true
  | x :: l' =>
      match callback x with
      | Returns true => everyJs callback l'
      | Returns false => Returns false
      | Throws => Throws
      end
  end.

(** [l.filter(callback)]: the callback is called on every element in
    order, and an error it raises ends the call. *)
Fixpoint filterJs {A} (callback : A → Outcome bool) (l : list A)
    : Outcome (list A) :=
  match l with
  | [] => Returns []
  | x :: l' =>
      match callback x with
      | Throws => Throws
      | Returns b =>
          match filterJs callback l' with
          | Throws => Throws
          | Returns r => Returns (if b then x :: r else r)
          end
      end
  end.

Section Filter.
Context `{TF : TextFormatter} `{PM : PriceMapper} `{L10n : Localization}.

Definition matchesSearch (searchLower : string) (store : Store) : bool :=
  negb (truthy (Some searchLower))
  || (includes (toLowerCase (store_name store)) searchLower
      || includes (toLowerCase (t (city store))) searchLower
      || includes (toLowerCase (t (country store))) searchLower
      || existsb (fun tag => includes (toLowerCase tag) searchLower) (tags store)).

Definition matchesArchive (showArchived : bool) (store : Store) : bool :=
  if showArchived then truthyb (isArchived store)
  else negb (truthyb (isArchived store)).

Definition matchesTags (selectedTags : list string) (store : Store) : bool :=
  (length selectedTags =? 0)%nat
  || forallb (fun tag => arrayIncludes (tags store) tag) selectedTags.

Definition matchesSale (onSale' : bool) (store : Store) : bool :=
  negb onSale' || truthyb (onSale store).

Definition matchesPrice (priceRanges' : list string) (store : Store) : bool :=
  (length priceRanges' =? 0)%nat
  || (truthy (Some (priceRange store))
      && arrayIncludes priceRanges' (getPriceBucket (priceRange store))).

(** The callback of [Object.entries(customFields).every]. With a
    non-empty option list it reads [store.customFields[field] || []]:
    an own entry is an array and so is truthy, [undefined] gives [[]],
    and an inherited member is truthy and has no [includes], so that
    the first call [storeValues.includes(opt)] raises a [TypeError]. *)
Definition matchesFieldJs (store : Store) (entry : string * list string)
    : Outcome bool :=
  let field := fst entry in
  let options := snd entry in
  if (length options =? 0)%nat then Returns true
  else
    match getProperty (customFields store) field with
    | OwnArray storeValues =>
        Returns (existsb (fun opt => arrayIncludes storeValues opt) options)
    | Undefined =>
        Returns (existsb (fun opt => arrayIncludes [] opt) options)
    | InheritedMember => Throws
    end.

(** Whether the callback returns [true]. *)
Definition matchesField (store : Store) (entry : string * list string) : bool :=
  match matchesFieldJs store entry with
  | Returns b => b
  | Throws => false
  end.

(** [Object.entries(customFields).every(...)], with [entries] the list
    [Object.entries(customFields)] in the order the engine yields it. *)
Definition matchesCustomFieldsJs (entries : list (string * list string))
    (store : Store) : Outcome bool :=
  everyJs (matchesFieldJs store) entries.

(** Whether [every] returns [true]: it does exactly when the callback
    returns [true] on each entry, in whatever order they come. *)
Definition matchesCustomFields (customFields' : gmap string (list string))
    (store : Store) : bool :=
  forallb (matchesField store) (map_to_list customFields').

(** The predicate handed to [stores.filter]: the five other clauses
    raise nothing, the custom-field clause is evaluated last and before
    the conjunction is taken. *)
Definition storeMatchesJs (entries : list (string * list string))
    (f : StoreFilters) (showArchived' : bool) (store : Store) : Outcome bool :=
  let searchLower := toLowerCase (trim (search f)) in
  let matchesSearch' := matchesSearch searchLower store in
  let matchesArchive' := matchesArchive showArchived' store in
  let matchesTags' := matchesTags (filter_tags f) store in
  let matchesSale' := matchesSale (filter_onSale f) store in
  let matchesPrice' := matchesPrice (priceRanges f) store in
  match matchesCustomFieldsJs entries store with
  | Throws => Throws
  | Returns matchesCustomFields' =>
      Returns (matchesSearch' && matchesArchive' && matchesTags' && matchesSale'
               && matchesPrice' && matchesCustomFields')
  end.

(** Whether the predicate returns [true]. *)
Definition storeMatches (f : StoreFilters) (showArchived' : bool) (store : Store) : bool :=
  let searchLower := toLowerCase (trim (search f)) in
  matchesSearch searchLower store
  && matchesArchive showArchived' store
  && matchesTags (filter_tags f) store
  && matchesSale (filter_onSale f) store
  && matchesPrice (priceRanges f) store
  && matchesCustomFields (filter_customFields f) store.

Definition compareStores (a b : Store) : Z :=
  compareStoreNames (store_name a) (store_name b).

(** The filter and the sort, over the store list of the collection;
    [entries] is [Object.entries(filters.customFields)]. *)
Definition filterAndSortJs (entries : list (string * list string))
    (l : list Store) (f : StoreFilters) (showArchived' : bool)
    : Outcome (list Store) :=
  match filterJs (storeMatchesJs entries f showArchived') l with
  | Throws => Throws
  | Returns kept => Returns (sortBy compareStores kept)
  end.

(** The list the filter and the sort return; it is the value of
    [filterAndSortJs] whenever that one returns
    ([filterAndSortJs_returns]). *)
Definition filterAndSort (l : list Store) (f : StoreFilters) (showArchived' : bool)
    : list Store :=
  sortBy compareStores (List.filter (storeMatches f showArchived') l).

(** The body of the memo [filteredStores]. *)
Definition filteredStoresJs (entries : list (string * list string))
    (st : AppState) : Outcome (list Store) :=
  match activeCollection st, user st with
  | Some c, Some _ =>
      filterAndSortJs entries (stores c) (filters st) (showArchived st)
  | _, _ => Returns []
  end.

(** The memoised value [filteredStores], when the memo returns. *)
Definition filteredStores (st : AppState) : list Store :=
  match activeCollection st, user st with
  | Some c, Some _ => filterAndSort (stores c) (filters st) (showArchived st)
  | _, _ => []
  end.

End Filter.

(** ** Editing, archiving and the folio handlers *)

Definition set_isArchived (b : option bool) (s : Store) : Store :=
  {| id := id s; collectionId := collectionId s; store_name := store_name s;
     description := description s; website := website s; country := country s;
     city := city s; tags := tags s; priceRange := priceRange s;
     onSale := onSale s; isArchived := b; rating := rating s;
     sustainability := sustainability s; customFields := customFields s;
     addedBy := addedBy s; favoritedBy := favoritedBy s;
     privateNotes := privateNotes s; imageUrl := imageUrl s |}.

Definition set_activeCollectionId (cid : option string) (st : AppState) : AppState :=
  {| user := user st; collections := collections st;
     activeCollectionId := cid;
     showArchived := showArchived st; filters := filters st;
     selectedStoreIds := selectedStoreIds st |}.

(** The collection [handleEditStore] saves. *)
Definition editStore (updatedStore : Store) (c : Collection) : Collection :=
  set_stores
    (List.map (fun s => if String.eqb (id s) (id updatedStore) then updatedStore else s)
       (stores c))
    c.

Definition handleEditStore (updatedStore : Store) (st : AppState) : AppState :=
  match activeCollection st with
  | None => st
  | Some c => saveCollection (editStore updatedStore c) st
  end.

(** The collection [handleArchiveStore] saves. *)
Definition archiveStore (storeId : string) (archive : bool) (c : Collection) : Collection :=
  set_stores
    (List.map (fun s => if String.eqb (id s) storeId
                        then set_isArchived (Some archive) s else s)
       (stores c))
    c.

Definition handleArchiveStore (storeId : string) (archive : bool) (st : AppState)
    : AppState :=
  match activeCollection st with
  | None => st
  | Some c => saveCollection (archiveStore storeId archive c) st
  end.

(** [Array.from(new Set(xs))]: the first occurrence of every element,
    in the order of [xs]. *)
Fixpoint arrayFromSet (xs : list string) : list string :=
  match xs with
  | [] => []
  | x :: r => x :: List.filter (fun y => negb (String.eqb y x)) (arrayFromSet r)
  end.

(** [(activeCollection.folios || []).map(f => f.id === folioId ? g(f) : f)] *)
Definition updateFolio (folioId : string) (g : Folio → Folio) (c : Collection)
    : Collection :=
  set_folios
    (Some (List.map (fun f => if String.eqb (folio_id f) folioId then g f else f)
             (default [] (folios c))))
    c.

(** The collections the folio handlers save. *)
Definition dropToFolio (storeId folioId : string) (c : Collection) : Collection :=
  updateFolio folioId
    (fun f => set_storeIds (arrayFromSet (storeIds f ++ [storeId])) f) c.

Definition syncFolioStores (folioId : string) (ids : list string) (c : Collection)
    : Collection :=
  updateFolio folioId (set_storeIds ids) c.

Definition removeFromFolio (storeId folioId : string) (c : Collection) : Collection :=
  updateFolio folioId
    (fun f => set_storeIds
       (List.filter (fun i => negb (String.eqb i storeId)) (storeIds f)) f) c.

Definition clearFolio (folioId : string) (c : Collection) : Collection :=
  updateFolio folioId (set_storeIds []) c.

(** [selected] is [Array.from(selectedStoreIds)], the selection in the
    order in which the ids were added to the set. *)
Definition bulkAddToFolio (selected : list string) (folioId : string) (c : Collection)
    : Collection :=
  updateFolio folioId
    (fun f => set_storeIds (arrayFromSet (storeIds f ++ selected)) f) c.

(** [uuid] and [now] stand for [crypto.randomUUID()] and
    [new Date().toISOString()]. *)
Definition folioAdd (uuid now name themeId' : string) (c : Collection) : Collection :=
  set_folios
    (Some (default [] (folios c)
           ++ [{| folio_id := uuid; folio_name := name; themeId := themeId';
                  storeIds := []; folio_createdAt := now |}])%list)
    c.

Definition deleteFolio (folioId : string) (c : Collection) : Collection :=
  set_folios
    (Some (List.filter (fun f => negb (String.eqb (folio_id f) folioId))
             (default [] (folios c))))
    c.

(** Every folio handler has the shape
    [if (!activeCollection) return; saveCollection(...)]. *)
Definition onActiveCollection (g : Collection → Collection) (st : AppState) : AppState :=
  match activeCollection st with
  | None => st
  | Some c => saveCollection (g c) st
  end.

Definition handleDropToFolio (storeId folioId : string) : AppState → AppState :=
  onActiveCollection (dropToFolio storeId folioId).

Definition handleSyncFolioStores (folioId : string) (ids : list string)
    : AppState → AppState :=
  onActiveCollection (syncFolioStores folioId ids).

Definition handleRemoveFromFolio (storeId folioId : string) : AppState → AppState :=
  onActiveCollection (removeFromFolio storeId folioId).

Definition handleClearFolio (folioId : string) : AppState → AppState :=
  onActiveCollection (clearFolio folioId).

Definition handleFolioAdd (uuid now name themeId' : string) : AppState → AppState :=
  onActiveCollection (folioAdd uuid now name themeId').

Definition handleDeleteFolio (folioId : string) : AppState → AppState :=
  onActiveCollection (deleteFolio folioId).

(** [handleRemoveCollection]: the removal from the remote database is
    outside the model. *)
Definition handleRemoveCollection (collectionId' : string) (st : AppState) : AppState :=
  match user st with
  | None => st
  | Some _ =>
      let keep c := negb (String.eqb (coll_id c) collectionId') in
      let st' := set_collections (List.filter keep (collections st)) st in
      match activeCollectionId st with
      | Some cid =>
          if String.eqb cid collectionId' then
            let remaining := List.filter keep (collections st) in
            set_activeCollectionId
              (match remaining with
               | first :: _ => Some (coll_id first)
               | [] => None
               end)
              st'
          else st'
      | None => st'
      end
  end.

(** [onClearCollection] of the profile page. *)
Definition clearCollection (collectionId' : string) (st : AppState) : AppState :=
  match List.find (fun x => String.eqb (coll_id x) collectionId') (collections st) with
  | Some c => saveCollection (set_stores [] c) st
  | None => st
  end.

(** The memoised [selectedStores]. *)
Definition selectedStores (st : AppState) : list Store :=
  match activeCollection st with
  | None => []
  | Some c => List.filter (fun s => bool_decide (id s ∈ selectedStoreIds st)) (stores c)
  end.

(** [onToggleSelection]: the updater handed to [setSelectedStoreIds]. *)
Definition toggleSelection (i : string) (prev : gset string) : gset string :=
  if bool_decide (i ∈ prev) then prev ∖ {[ i ]} else prev ∪ {[ i ]}.

(** [hasActiveFilters], as handed to the store list; the keys of
    [customFields] are visited through its entries. *)
Definition hasActiveFilters (f : StoreFilters) : bool :=
  (0 <? length (filter_tags f))%nat
  || filter_onSale f
  || (0 <? length (priceRanges f))%nat
  || existsb (fun entry => (0 <? length (snd entry))%nat)
       (map_to_list (filter_customFields f))
  || truthy (Some (search f)).

Definition set_search (q : string) (f : StoreFilters) : StoreFilters :=
  {| search := q; filter_tags := filter_tags f; filter_onSale := filter_onSale f;
     priceRanges := priceRanges f; filter_customFields := filter_customFields f |}.

(** ** Sign-in profile and the filter state in the address bar *)

(** [s.split(sep)] for a separator of one character. *)
Fixpoint split (sep : ascii) (s : string) : list string :=
  match s with
  | EmptyString => [EmptyString]
  | String c r =>
      if Ascii.eqb c sep then EmptyString :: split sep r
      else match split sep r with
           | piece :: pieces => String c piece :: pieces
           | [] => [String c EmptyString]
           end
  end.

(** [l.join(sep)] *)
Fixpoint join (sep : string) (l : list string) : string :=
  match l with
  | [] => EmptyString
  | x :: r =>
      match r with
      | [] => x
      | _ :: _ => x ++ sep ++ join sep r
      end
  end.

(** [l.filter(Boolean)] on an array of strings. *)
Definition filterBoolean (l : list string) : list string :=
  List.filter (fun x => truthy (Some x)) l.

(** The rest of [s] after the prefix [pat], when [s] starts with it. *)
Fixpoint dropPrefix (pat s : string) : option string :=
  match pat, s with
  | EmptyString, _ => Some s
  | String p pat', String c s' => if Ascii.eqb p c then dropPrefix pat' s' else None
  | String _ _, EmptyString => None
  end.

(** [s.replace(pat, '')]: the first occurrence of [pat] is removed. *)
Fixpoint removeFirst (pat s : string) : string :=
  match dropPrefix pat s with
  | Some rest => rest
  | None =>
      match s with
      | EmptyString => EmptyString
      | String c r => String c (removeFirst pat r)
      end
  end.

(** [s.replace(/_/g, ' ')] *)
Fixpoint underscoresToSpaces (s : string) : string :=
  match s with
  | EmptyString => EmptyString
  | String c r =>
      String (if Ascii.eqb c "_" then " "%char else c) (underscoresToSpaces r)
  end.

(** [s.replace(/\s+/g, '_')] *)
Fixpoint whitespaceToUnderscore (s : string) : string :=
  match s with
  | EmptyString => EmptyString
  | String c r =>
      if isWhiteSpace c then
        match r with
        | String c' _ =>
            if isWhiteSpace c' then whitespaceToUnderscore r
            else String "_" (whitespaceToUnderscore r)
        | EmptyString => String "_" EmptyString
        end
      else String c (whitespaceToUnderscore r)
  end.

(** The names of the profile created at the first sign-in:
    [(firebaseUser.displayName || 'User').split(' ')]. *)
Definition displayNameOf (displayName : option string) : string :=
  match displayName with
  | Some (String c r) => String c r
  | _ => "User"
  end.

Definition namesOf (displayName : option string) : list string :=
  split " " (displayNameOf displayName).

(** [names[0]]; [split] never gives the empty array. *)
Definition firstNameOf (displayName : option string) : string :=
  default "" (head (namesOf displayName)).

(** [names.length > 1 ? names.slice(1).join(' ') : ''] *)
Definition lastNameOf (displayName : option string) : string :=
  let names := namesOf displayName in
  if (1 <? length names)%nat then join " " (tail names) else "".

(** The name part of [appUser], for the account [uid]. *)
Definition newProfile (uid : string) (displayName : option string) : User :=
  {| userId := uid; firstName := firstNameOf displayName;
     lastName := lastNameOf displayName |}.

(** The entries of a [URLSearchParams], decoded, in their order. *)
Definition URLSearchParams : Type := list (string * string).

(** [params.get(k)] *)
Definition paramsGet (k : string) (params : URLSearchParams) : option string :=
  option_map snd (List.find (fun e => String.eqb (fst e) k) params).

(** [params.set(k, v)]: the first entry of the key takes the value and
    the other entries of the key are removed; a new key is appended. *)
Fixpoint paramsSet (k v : string) (params : URLSearchParams) : URLSearchParams :=
  match params with
  | [] => [(k, v)]
  | e :: r =>
      if String.eqb (fst e) k
      then (k, v) :: List.filter (fun e' => negb (String.eqb (fst e') k)) r
      else e :: paramsSet k v r
  end.

(** [`cf_${field.toLowerCase().replace(/\s+/g, '_')}`] *)
Definition cfKey (field : string) : string :=
  "cf_" ++ whitespaceToUnderscore (toLowerCase field).

(** [key.replace('cf_', '').replace(/_/g, ' ')] *)
Definition cfFieldName (key : string) : string :=
  underscoresToSpaces (removeFirst "cf_" key).

(** [value.split(',').filter(Boolean)] *)
Definition splitValues (value : string) : list string :=
  filterBoolean (split "," value).

(** [getInitialFiltersFromUrl], from the parameters of
    [window.location.search]. *)
Definition getInitialFiltersFromUrl (params : URLSearchParams) : StoreFilters :=
  let customFields' :=
    List.fold_left
      (fun (cf : gmap string (list string)) (e : string * string) =>
         if String.prefix "cf_" (fst e)
         then <[cfFieldName (fst e) := splitValues (snd e)]> cf
         else cf)
      params ∅ in
  {| search := orEmpty (paramsGet "q" params);
     filter_tags := match paramsGet "tags" params with
                    | Some v => splitValues v
                    | None => []
                    end;
     filter_onSale := match paramsGet "sale" params with
                      | Some v => String.eqb v "true"
                      | None => false
                      end;
     priceRanges := match paramsGet "price" params with
                    | Some v => splitValues v
                    | None => []
                    end;
     filter_customFields := customFields' |}.

(** The parameters the synchronisation effect writes to the address
    bar; [entries] is [Object.entries(filters.customFields)], in the
    order in which the object lists its fields. *)
Definition filtersToParams (entries : list (string * list string)) (f : StoreFilters)
    : URLSearchParams :=
  let params : URLSearchParams := [] in
  let params :=
    if truthy (Some (search f)) then paramsSet "q" (search f) params else params in
  let params :=
    if (0 <? length (filter_tags f))%nat
    then paramsSet "tags" (join "," (filter_tags f)) params else params in
  let params :=
    if filter_onSale f then paramsSet "sale" "true" params else params in
  let params :=
    if (0 <? length (priceRanges f))%nat
    then paramsSet "price" (join "," (priceRanges f)) params else params in
  List.fold_left
    (fun (p : URLSearchParams) (e : string * list string) =>
       if (0 <? length (snd e))%nat
       then paramsSet (cfKey (fst e)) (join "," (snd e)) p else p)
    entries params.

(** A facet value that survives [join(',')] and [split(',')]: not
    empty and without a comma. *)
Definition plainValue (x : string) : Prop :=
  x ≠ "" ∧ ¬ In ","%char (list_ascii_of_string x).

(** ** A reference implementation of the imported utilities

    Used to run the handlers on concrete catalogues. *)

Module Reference.

(** Replaces every run of white space by one space. *)
Fixpoint collapseWhitespace (s : string) : string :=
  match s with
  | EmptyString => EmptyString
  | String c r =>
      if isWhiteSpace c then
        match r with
        | String c' _ =>
            if isWhiteSpace c' then collapseWhitespace r
            else String " " (collapseWhitespace r)
        | EmptyString => String " " EmptyString
        end
      else String c (collapseWhitespace r)
  end.

(** Modelled from the spec: [./utils/textFormatter] is not part of the
    sources. "trims whitespace, collapses internal whitespace, used to
    build a stable comparison key", compared case-insensitively. *)
Definition normalizeStoreName (s : string) : string :=
  toLowerCase (collapseWhitespace (trim s)).

Definition signOf (c : comparison) : Z :=
  match c with
  | Lt => -1
  | Eq => 0
  | Gt => 1
  end.

(** Modelled from the spec: [./utils/textFormatter] is not part of the
    sources. "returns a total order consistent with normalizeName; ties
    broken by raw string comparison". *)
Definition compareStoreNames (a b : string) : Z :=
  match String.compare (normalizeStoreName a) (normalizeStoreName b) with
  | Eq => signOf (String.compare a b)
  | c => signOf c
  end.

(** Modelled from the spec: [./utils/textFormatter] is not part of the
    sources. "normalizes whitespace/punctuation without truncation, and
    is idempotent"; only the white-space part is fixed by the text. *)
Definition formatDescription (s : string) : string :=
  collapseWhitespace (trim s).

(** Modelled from the spec: [./utils/priceMapper] is not part of the
    sources. The symbolic tiers map to the four buckets, a bucket id
    maps to itself, and anything else to the unclassified sentinel,
    taken to be the empty string. *)
Definition getPriceBucket (p : string) : string :=
  if String.eqb p "$" || String.eqb p "low" then "low"
  else if String.eqb p "$$" || String.eqb p "mid" then "mid"
  else if String.eqb p "$$$" || String.eqb p "high" then "high"
  else if String.eqb p "$$$$" || String.eqb p "ultra" then "ultra"
  else "".

(** Modelled from the spec: [./utils/localization] is not part of the
    sources; a key without a translation is displayed as it is. *)
Definition t (key : string) : string := key.

#[export] Instance textFormatter : TextFormatter :=
  Build_TextFormatter compareStoreNames formatDescription.

#[export] Instance priceMapper : PriceMapper :=
  Build_PriceMapper getPriceBucket.

#[export] Instance localization : Localization :=
  Build_Localization t.

End Reference.

(** ** Sample catalogue *)

Definition sampleUser : User :=
  {| userId := "u1"; firstName := "Ada"; lastName := "Lovelace" |}.

(** A store with every optional property unset or neutral. *)
Definition bareStore (i name : string) : Store :=
  {| id := i; collectionId := "c1"; store_name := name;
     description := None; website := None; country := ""; city := "";
     tags := []; priceRange := ""; onSale := None; isArchived := None;
     rating := 0; sustainability := ""; customFields := ∅;
     addedBy := addedByOf sampleUser; favoritedBy := []; privateNotes := [];
     imageUrl := None |}.

(** The stores of the merge scenario. *)
Definition scenarioExisting : Store :=
  set_description (Some "ok") (set_website (Some "N/A") (bareStore "s1" "Acme")).

Definition scenarioEnriched : Store :=
  set_description (Some "new longer text")
    (set_website (Some "http://x.com") (bareStore "s1" "Acme")).

(** A store whose website and description were written by its owner. *)
Definition authoredStore : Store :=
  set_description (Some "Hand-made leather goods")
    (set_website (Some "https://acme.example") (bareStore "s3" "Acme Leather")).

(** A catalogue entry with the properties the facets read. *)
Definition catalogueStore (i name price : string) (tgs : list string)
    (archived : option bool) (cf : gmap string (list string)) : Store :=
  {| id := i; collectionId := "c1"; store_name := name;
     description := None; website := None; country := ""; city := "";
     tags := tgs; priceRange := price; onSale := None; isArchived := archived;
     rating := 0; sustainability := ""; customFields := cf;
     addedBy := addedByOf sampleUser; favoritedBy := []; privateNotes := [];
     imageUrl := None |}.

Definition freeStore : Store :=
  catalogueStore "p1" "Gratis" "free" ["vegan"] None ∅.

Definition highStore : Store :=
  catalogueStore "p2" "Haute" "$$$" ["vegan"; "sale"] (Some true)
    {[ "Material" := ["Leather"; "Wool"] ]}.

Definition midStore : Store :=
  catalogueStore "p3" "Moyen" "$$" ["vegan"] (Some false)
    {[ "Material" := ["Cotton"] ]}.

Definition sampleCatalogue : list Store := [freeStore; highStore; midStore].

(** The filter with every facet off. *)
Definition noFilters : StoreFilters :=
  {| search := ""; filter_tags := []; filter_onSale := false;
     priceRanges := []; filter_customFields := ∅ |}.

Definition highOnly : StoreFilters := set_priceRanges ["high"] noFilters.

Definition leatherOnly : gmap string (list string) :=
  {[ "Material" := ["Leather"]; "Origin" := [] ]}.

Definition acmeUpper : Store := bareStore "a1" "Acme".
Definition acmeLower : Store := bareStore "a2" "acme".
Definition acmeTwin : Store := bareStore "a3" "Acme".

Definition importedRow : ImportedStore :=
  {| i_id := "row1"; i_store_name := "Acme"; i_description := Some "Fine shoes";
     i_website := None; i_country := "France"; i_city := "Paris";
     i_tags := ["Vegan "; "vegan"]; i_priceRange := "$$$";
     i_onSale := None; i_isArchived := None; i_rating := 4;
     i_sustainability := "B-Corp"; i_customFields := None; i_imageUrl := None |}.

Definition formData : PartialStore :=
  {| p_store_name := "Acme"; p_description := Some "Fine shoes";
     p_website := None; p_country := Some "France"; p_city := Some "Paris";
     p_tags := Some ["Vegan "; "vegan"]; p_priceRange := Some "$$$";
     p_onSale := None; p_isArchived := None; p_rating := Some 4;
     p_sustainability := Some "B-Corp"; p_customFields := None;
     p_imageUrl := None |}.

Definition sampleFolio : Folio :=
  {| folio_id := "f1"; folio_name := "Favourites"; themeId := "t1";
     storeIds := ["p1"; "p2"]; folio_createdAt := "2024-01-01" |}.

Definition sampleCollection : Collection :=
  {| coll_id := "c1"; ownerId := "u1"; coll_name := "Fashion";
     template := "Fashion"; stores := sampleCatalogue;
     folios := Some [sampleFolio]; coll_createdAt := "2024-01-01" |}.

Definition sampleState : AppState :=
  {| user := Some sampleUser; collections := [sampleCollection];
     activeCollectionId := Some "c1"; showArchived := false;
     filters := noFilters; selectedStoreIds := {[ "p1" ]} |}.

(** A small cap, to run the import on the sample catalogue. *)
Definition sampleLimits : Limits := Build_Limits 4.

Definition sampleUuid (k : nat) : string :=
  match k with
  | O => "n0"
  | S O => "n1"
  | _ => "n2"
  end.

(** The filter run with the reference utilities. *)
Definition refFilterAndSort : list Store → StoreFilters → bool → list Store :=
  filterAndSort (TF:=Reference.textFormatter) (PM:=Reference.priceMapper)
    (L10n:=Reference.localization).




(** ** Vocabulary of the properties *)

(** Emptiness of a field, as the design document words it. *)
Definition sentinels : list string := ["none"; "n/a"; "na"; "false"].

(** Matches a sentinel non-value, case-insensitively, after trimming. *)
Definition isSentinel (x : string) : Prop :=
  In (toLowerCase (trim x)) sentinels.

(** Absent or the empty string. *)
Definition blank (x : option string) : Prop :=
  x = None ∨ x = Some "".

Definition websiteIsEmpty (w : option string) : Prop :=
  blank w ∨ ∃ x, w = Some x ∧ isSentinel x.

Definition descriptionIsEmpty (d : option string) : Prop :=
  blank d ∨ ∃ x, d = Some x ∧ ((String.length x < 10)%nat ∨ isSentinel x).

(** Every property of a store other than [website] and [description]. *)
Definition sameOtherFields (s u : Store) : Prop :=
  id u = id s ∧ collectionId u = collectionId s ∧ store_name u = store_name s
  ∧ country u = country s ∧ city u = city s ∧ tags u = tags s
  ∧ priceRange u = priceRange s ∧ onSale u = onSale s
  ∧ isArchived u = isArchived s ∧ rating u = rating s
  ∧ sustainability u = sustainability s ∧ customFields u = customFields s
  ∧ addedBy u = addedBy s ∧ favoritedBy u = favoritedBy s
  ∧ privateNotes u = privateNotes s ∧ imageUrl u = imageUrl s.

(** The bucket ids a price facet holds ([StoreFilters.priceRanges]). *)
Definition bucketIds : list string := ["low"; "mid"; "high"; "ultra"].

(** [new] is [old] with [x] added at some position. *)
Definition addOne (x : string) (old new : list string) : Prop :=
  ∃ l1 l2 : list string, old = (l1 ++ l2)%list ∧ new = (l1 ++ x :: l2)%list.

(** The stores called [n]. *)
Definition hasName (n : string) (s : Store) : bool :=
  String.eqb (store_name s) n.

(** The order a comparator induces: [x] may stand before [y]. *)
Definition leBy {A} (cmp : A → A → Z) (x y : A) : Prop := cmp x y <= 0.

(** What the design document requires of [compareStoreNames]: a total
    order on names (ties are broken by the raw strings, so only equal
    names compare equal). *)
Class NameOrder `{TF : TextFormatter} : Prop := {
  compare_total : ∀ a b, compareStoreNames a b <= 0 ∨ compareStoreNames b a <= 0;
  compare_trans : ∀ a b c,
    compareStoreNames a b <= 0 → compareStoreNames b c <= 0 →
    compareStoreNames a c <= 0;
  compare_antisym : ∀ a b,
    compareStoreNames a b <= 0 → compareStoreNames b a <= 0 → a = b
}.

(** A pattern character whose case folding agrees with lower-casing. *)
Definition foldsLikeLower (p : ascii) : Prop :=
  ∀ c, Ascii.eqb (canonicalize p) (canonicalize c) = Ascii.eqb (lowerChar c) p.

(** * Properties *)

Example trim_example : trim "  N/A " = "N/A".
Proof. reflexivity. Qed.

Example includes_example : includes "brand curator" "cur" = true.
Proof. reflexivity. Qed.

(** A website of white space only is truthy and matches no sentinel:
    the merge does not count it as empty. *)
Example whitespace_website_not_empty :
  websiteEmpty (set_website (Some "   ") (bareStore "s1" "Acme")) = false.
Proof. reflexivity. Qed.

Example sentinel_website_empty :
  websiteEmpty (set_website (Some " n/A ") (bareStore "s1" "Acme")) = true.
Proof. reflexivity. Qed.

(** ** Strings *)

Ltac all_code_units c :=
  destruct c as [[] [] [] [] [] [] [] []]; vm_compute; reflexivity.

Lemma sentinel_chars_fold :
  Forall foldsLikeLower (list_ascii_of_string "noeaflse/").
Proof.
  repeat constructor; intros c; all_code_units c.
Qed.

Lemma matchLiteralCI_lower (pat : string) :
  Forall foldsLikeLower (list_ascii_of_string pat) →
  ∀ s, matchLiteralCI pat s = String.eqb (toLowerCase s) pat.
Proof.
  induction pat as [|p pat IH]; intros Hp s.
  - destruct s; reflexivity.
  - inversion Hp as [|? ? Hc Hrest]; subst.
    destruct s as [|c s]; [reflexivity|].
    simpl. rewrite Hc, IH by assumption. reflexivity.
Qed.

Lemma sentinelRe_spec (x : string) :
  sentinelRe x = true ↔ In (toLowerCase x) sentinels.
Proof.
  pose proof sentinel_chars_fold as Hall.
  assert (Hsub : ∀ pat, In pat sentinels →
            Forall foldsLikeLower (list_ascii_of_string pat)).
  { intros pat Hin. rewrite List.Forall_forall in Hall |- *.
    intros c Hc. apply Hall.
    simpl in Hin.
    destruct Hin as [<-|[<-|[<-|[<-|[]]]]]; simpl in Hc |- *; tauto. }
  unfold sentinelRe.
  rewrite !matchLiteralCI_lower by (apply Hsub; simpl; tauto).
  rewrite !orb_true_iff, !String.eqb_eq. simpl.
  split; intros Hx.
  - destruct Hx as [[[->| ->]| ->]| ->]; tauto.
  - destruct Hx as [<-|[<-|[<-|[<-|[]]]]]; tauto.
Qed.

Lemma truthy_Some (x : string) : truthy (Some x) = true ↔ x ≠ "".
Proof. destruct x; simpl; split; congruence. Qed.

Lemma truthy_blank (x : option string) : truthy x = false ↔ blank x.
Proof.
  unfold blank. destruct x as [[|c r]|]; simpl; split; intros Hx;
    try tauto; try congruence; destruct Hx; congruence.
Qed.

(** Trimming and lower-casing are idempotent and commute. *)

Lemma isWhiteSpace_lowerChar (c : ascii) :
  isWhiteSpace (lowerChar c) = isWhiteSpace c.
Proof. all_code_units c. Qed.

Lemma lowerChar_idem (c : ascii) : lowerChar (lowerChar c) = lowerChar c.
Proof. all_code_units c. Qed.

Lemma toLowerCase_idem (s : string) : toLowerCase (toLowerCase s) = toLowerCase s.
Proof.
  induction s as [|c s IH]; simpl; [reflexivity|].
  rewrite lowerChar_idem, IH. reflexivity.
Qed.

Lemma trimStart_toLowerCase (s : string) :
  trimStart (toLowerCase s) = toLowerCase (trimStart s).
Proof.
  induction s as [|c s IH]; simpl; [reflexivity|].
  rewrite isWhiteSpace_lowerChar. destruct (isWhiteSpace c); [exact IH|reflexivity].
Qed.

Lemma trimEnd_toLowerCase (s : string) :
  trimEnd (toLowerCase s) = toLowerCase (trimEnd s).
Proof.
  induction s as [|c s IH]; simpl; [reflexivity|].
  rewrite IH, isWhiteSpace_lowerChar.
  destruct (trimEnd s); simpl; [destruct (isWhiteSpace c)|]; reflexivity.
Qed.

Lemma trim_toLowerCase (s : string) : trim (toLowerCase s) = toLowerCase (trim s).
Proof. unfold trim. rewrite trimStart_toLowerCase, trimEnd_toLowerCase. reflexivity. Qed.

Lemma trimEnd_cons (c : ascii) (r : string) :
  isWhiteSpace c = false → trimEnd (String c r) = String c (trimEnd r).
Proof. intros Hc. simpl. rewrite Hc. destruct (trimEnd r); reflexivity. Qed.

Lemma trimEnd_idem (s : string) : trimEnd (trimEnd s) = trimEnd s.
Proof.
  induction s as [|c s IH]; [reflexivity|].
  simpl. destruct (trimEnd s) as [|c' r'] eqn:He.
  - destruct (isWhiteSpace c) eqn:Hc; simpl; [reflexivity|]. rewrite Hc. reflexivity.
  - change (trimEnd (String c (String c' r'))) with
      (match trimEnd (String c' r') with
       | EmptyString => if isWhiteSpace c then EmptyString else String c EmptyString
       | r0 => String c r0
       end).
    rewrite IH. reflexivity.
Qed.

Lemma trimStart_head (s : string) :
  trimStart s = "" ∨ ∃ c r, trimStart s = String c r ∧ isWhiteSpace c = false.
Proof.
  induction s as [|c s IH]; simpl; [left; reflexivity|].
  destruct (isWhiteSpace c) eqn:Hc; [exact IH|].
  right. exists c, s. split; [reflexivity|exact Hc].
Qed.

Lemma trim_idem (s : string) : trim (trim s) = trim s.
Proof.
  unfold trim. destruct (trimStart_head s) as [->|(c & r & -> & Hc)]; [reflexivity|].
  rewrite (trimEnd_cons c r Hc). simpl trimStart. rewrite Hc.
  rewrite (trimEnd_cons c _ Hc), trimEnd_idem. reflexivity.
Qed.

(** The test of the handler is the emptiness of the design document. *)
Lemma websiteEmpty_spec (s : Store) :
  websiteEmpty s = true ↔ websiteIsEmpty (website s).
Proof.
  unfold websiteEmpty, websiteIsEmpty, isSentinel.
  destruct (website s) as [w|].
  - rewrite orb_true_iff, negb_true_iff, truthy_blank, sentinelRe_spec.
    split; (intros [Hb|Hs]; [left; exact Hb|right]).
    + exists w. split; [reflexivity|exact Hs].
    + destruct Hs as (x & [= <-] & Hx). exact Hx.
  - split; [intros _; left; left; reflexivity|reflexivity].
Qed.

Lemma descEmpty_spec (s : Store) :
  descEmpty s = true ↔ descriptionIsEmpty (description s).
Proof.
  unfold descEmpty, descriptionIsEmpty, isSentinel.
  destruct (description s) as [d|].
  - rewrite !orb_true_iff, negb_true_iff, truthy_blank, sentinelRe_spec, Z.ltb_lt.
    split.
    + intros [[Hb|Hl]|Hs]; [left; exact Hb|right; exists d..].
      * split; [reflexivity|left; lia].
      * split; [reflexivity|right; exact Hs].
    + intros [Hb|(x & [= <-] & [Hl|Hs])]; [left; left; exact Hb|left; right; lia|right; exact Hs].
  - split; [intros _; left; left; reflexivity|reflexivity].
Qed.

(** ** Enrichment merge *)

Section EnrichmentProperties.
Context `{TF : TextFormatter}.

Lemma mergeEnrichment_website (s e : Store) :
  website (mergeEnrichment s e)
  = if truthy (website e) && websiteEmpty s then website e else website s.
Proof.
  unfold mergeEnrichment.
  destruct (truthy (website e) && websiteEmpty s);
    destruct (description e) as [d|]; try reflexivity;
    destruct (truthy (Some d) && descEmpty s); reflexivity.
Qed.

Lemma mergeEnrichment_description (s e : Store) :
  description (mergeEnrichment s e)
  = match description e with
    | Some d =>
        if truthy (Some d) && descEmpty s then Some (formatDescription d)
        else description s
    | None => description s
    end.
Proof.
  unfold mergeEnrichment.
  destruct (truthy (website e) && websiteEmpty s);
    destruct (description e) as [d|]; try reflexivity;
    destruct (truthy (Some d) && descEmpty s); reflexivity.
Qed.

Lemma mergeEnrichment_frame (s e : Store) :
  sameOtherFields s (mergeEnrichment s e).
Proof.
  unfold mergeEnrichment, sameOtherFields.
  destruct (truthy (website e) && websiteEmpty s);
    destruct (description e) as [d|];
    try destruct (truthy (Some d) && descEmpty s);
    simpl; repeat split; reflexivity.
Qed.

Lemma enrichStore_no_match (enrichedStores : list Store) (s : Store) :
  (∀ e, In e enrichedStores → id e ≠ id s) →
  enrichStore enrichedStores s = s.
Proof.
  intros Hno. unfold enrichStore.
  destruct (List.find _ enrichedStores) as [e|] eqn:Hfind; [|reflexivity].
  apply List.find_some in Hfind as [Hin Heq].
  apply String.eqb_eq in Heq. destruct (Hno e Hin Heq).
Qed.

(** C1. The merge takes an enriched [website] or [description] only
    when the existing field is empty in the field's own sense (website:
    blank or a sentinel; description: blank, shorter than ten
    characters, or a sentinel). A non-empty existing field is never
    changed; an empty one is replaced by any non-blank enriched value,
    the description after [formatDescription]. *)
Theorem mergeEnrichment_fills_only_empty (s e : Store) :
  (website (mergeEnrichment s e) ≠ website s →
     websiteIsEmpty (website s) ∧ website (mergeEnrichment s e) = website e)
  ∧ (description (mergeEnrichment s e) ≠ description s →
     descriptionIsEmpty (description s)
     ∧ ∃ d, description e = Some d
            ∧ description (mergeEnrichment s e) = Some (formatDescription d))
  ∧ (¬ websiteIsEmpty (website s) →
     website (mergeEnrichment s e) = website s)
  ∧ (¬ descriptionIsEmpty (description s) →
     description (mergeEnrichment s e) = description s)
  ∧ (websiteIsEmpty (website s) → ¬ blank (website e) →
     website (mergeEnrichment s e) = website e)
  ∧ (descriptionIsEmpty (description s) →
     ∀ d, description e = Some d → d ≠ "" →
     description (mergeEnrichment s e) = Some (formatDescription d)).
Proof.
  rewrite mergeEnrichment_website, mergeEnrichment_description.
  rewrite <- websiteEmpty_spec, <- descEmpty_spec.
  pose proof (truthy_blank (website e)) as Hblank.
  destruct (websiteEmpty s), (descEmpty s), (truthy (website e)),
    (description e) as [[|c d]|]; simpl.
  all: repeat match goal with |- _ ∧ _ => split end.
  all: try congruence.
  all: try (intros; exfalso; tauto).
  all: try (intros _; split; [reflexivity|eexists; split; reflexivity]).
  all: intros; congruence.
Qed.

(** C2 (amended). On the merge scenario the website "N/A" is replaced
    by the enriched one, and the two-character description "ok", being
    shorter than ten characters, is replaced by the formatted enriched
    description. *)
Theorem merge_scenario_result :
  descEmpty scenarioExisting = true
  ∧ enrichStores [scenarioEnriched] [scenarioExisting]
    = [set_description (Some (formatDescription "new longer text"))
         (set_website (Some "http://x.com") scenarioExisting)].
Proof. split; reflexivity. Qed.

(** C3. The merge leaves every property other than [website] and
    [description] as it was, store by store, and a store without an
    entry of the same id in the enrichment result is returned as it
    is. *)
Theorem enrichStores_frame (enrichedStores existing : list Store) :
  length (enrichStores enrichedStores existing) = length existing
  ∧ ∀ k s, existing !! k = Some s →
      ∃ u, enrichStores enrichedStores existing !! k = Some u
           ∧ sameOtherFields s u
           ∧ ((∀ e, In e enrichedStores → id e ≠ id s) → u = s).
Proof.
  unfold enrichStores. split; [apply List.length_map|].
  intros k s Hk. exists (enrichStore enrichedStores s).
  split; [|split].
  - rewrite list_lookup_fmap, Hk. reflexivity.
  - unfold enrichStore.
    destruct (List.find _ enrichedStores) as [e|].
    + apply mergeEnrichment_frame.
    + unfold sameOtherFields. repeat split; reflexivity.
  - apply enrichStore_no_match.
Qed.

End EnrichmentProperties.

Lemma mergeEnrichment_fills_only_empty_witness :
  website (mergeEnrichment (TF:=Reference.textFormatter) scenarioExisting scenarioEnriched)
  = website scenarioEnriched
  ∧ website (mergeEnrichment (TF:=Reference.textFormatter) authoredStore scenarioEnriched)
    = website authoredStore
  ∧ description (mergeEnrichment (TF:=Reference.textFormatter) authoredStore scenarioEnriched)
    = description authoredStore.
Proof.
  pose proof (mergeEnrichment_fills_only_empty (TF:=Reference.textFormatter)
                scenarioExisting scenarioEnriched) as (_ & _ & _ & _ & Hfill & _).
  pose proof (mergeEnrichment_fills_only_empty (TF:=Reference.textFormatter)
                authoredStore scenarioEnriched) as (_ & _ & Hkeepw & Hkeepd & _ & _).
  split; [|split].
  - apply Hfill.
    + right. exists "N/A". split; [reflexivity|]. unfold isSentinel. simpl. tauto.
    + intros [Hb|Hb]; discriminate Hb.
  - apply Hkeepw. rewrite <- websiteEmpty_spec. vm_compute. discriminate.
  - apply Hkeepd. rewrite <- descEmpty_spec. vm_compute. discriminate.
Defined.

(** C2, as stated, fails: the handler counts the description "ok" as
    empty and overwrites it. *)
Lemma merge_scenario_counterexample :
  descEmpty scenarioExisting = true
  ∧ description (mergeEnrichment (TF:=Reference.textFormatter)
                   scenarioExisting scenarioEnriched)
    = Some "new longer text"
  ∧ description (mergeEnrichment (TF:=Reference.textFormatter)
                   scenarioExisting scenarioEnriched)
    ≠ Some "ok".
Proof. split; [reflexivity|split; [reflexivity|discriminate]]. Qed.

Lemma enrichStores_frame_witness :
  enrichStores (TF:=Reference.textFormatter) [scenarioEnriched]
    [scenarioExisting; bareStore "s2" "Zed"] !! 1%nat
  = Some (bareStore "s2" "Zed").
Proof.
  destruct (proj2 (enrichStores_frame (TF:=Reference.textFormatter) [scenarioEnriched]
                     [scenarioExisting; bareStore "s2" "Zed"])
              1%nat (bareStore "s2" "Zed") eq_refl) as (u & Hu & _ & Hsame).
  rewrite Hu. f_equal. apply Hsame.
  intros e [<-|[]]. simpl. discriminate.
Defined.

(** ** Facet filter *)

Lemma arrayIncludes_In (xs : list string) (x : string) :
  arrayIncludes xs x = true ↔ In x xs.
Proof.
  unfold arrayIncludes. rewrite existsb_exists. split.
  - intros (y & Hy & Heq). apply String.eqb_eq in Heq. subst. exact Hy.
  - intros Hx. exists x. split; [exact Hx|apply String.eqb_refl].
Qed.

Lemma length_zero_nil {A} (l : list A) : (length l =? 0)%nat = true ↔ l = [].
Proof. destruct l; simpl; split; congruence. Qed.

Section SortProperties.
Context {A : Type} (cmp : A → A → Z).

Lemma insertBy_Permutation (x : A) (l : list A) :
  Permutation (insertBy cmp x l) (x :: l).
Proof.
  induction l as [|y l IH]; simpl; [reflexivity|].
  destruct (cmp x y <=? 0); [reflexivity|].
  rewrite IH. apply perm_swap.
Qed.

Lemma sortBy_Permutation (l : list A) : Permutation (sortBy cmp l) l.
Proof.
  induction l as [|x l IH]; simpl; [reflexivity|].
  rewrite insertBy_Permutation. apply perm_skip, IH.
Qed.

Lemma sortBy_In (l : list A) (x : A) : In x (sortBy cmp l) ↔ In x l.
Proof.
  split; apply Permutation_in;
    [apply sortBy_Permutation|symmetry; apply sortBy_Permutation].
Qed.

Lemma sortBy_length (l : list A) : length (sortBy cmp l) = length l.
Proof. apply Permutation_length, sortBy_Permutation. Qed.

End SortProperties.

Section FilterProperties.
Context `{TF : TextFormatter} `{PM : PriceMapper} `{L10n : Localization}.

Lemma filterAndSort_In (l : list Store) (f : StoreFilters) (a : bool) (s : Store) :
  In s (filterAndSort l f a) ↔ In s l ∧ storeMatches f a s = true.
Proof. unfold filterAndSort. rewrite sortBy_In. apply List.filter_In. Qed.

Lemma storeMatches_clauses (f : StoreFilters) (a : bool) (s : Store) :
  storeMatches f a s = true ↔
    matchesSearch (toLowerCase (trim (search f))) s = true
    ∧ matchesArchive a s = true
    ∧ matchesTags (filter_tags f) s = true
    ∧ matchesSale (filter_onSale f) s = true
    ∧ matchesPrice (priceRanges f) s = true
    ∧ matchesCustomFields (filter_customFields f) s = true.
Proof. unfold storeMatches. rewrite !andb_true_iff. tauto. Qed.

Lemma matchesPrice_spec (ps : list string) (s : Store) :
  matchesPrice ps s = true ↔
    ps = [] ∨ (priceRange s ≠ "" ∧ In (getPriceBucket (priceRange s)) ps).
Proof.
  unfold matchesPrice.
  rewrite orb_true_iff, andb_true_iff, length_zero_nil, truthy_Some, arrayIncludes_In.
  reflexivity.
Qed.

(** C4. While the price facet is active, a store is in the result only
    if its price is set and classifies into one of the selected
    buckets; a store with an empty price, or one whose price classifies
    into none of the bucket ids, never is. With no bucket selected the
    price clause holds of every store, and the result is decided by the
    other five clauses. *)
Theorem price_facet_excludes_unclassified
    (l : list Store) (f : StoreFilters) (a : bool) (s : Store) :
  (priceRanges f ≠ [] → In s (filterAndSort l f a) →
     priceRange s ≠ "" ∧ In (getPriceBucket (priceRange s)) (priceRanges f))
  ∧ (priceRanges f ≠ [] →
     priceRange s = "" ∨ ¬ In (getPriceBucket (priceRange s)) (priceRanges f) →
     ¬ In s (filterAndSort l f a))
  ∧ (priceRanges f ≠ [] → incl (priceRanges f) bucketIds →
     ¬ In (getPriceBucket (priceRange s)) bucketIds →
     ¬ In s (filterAndSort l f a))
  ∧ (priceRanges f = [] →
     matchesPrice (priceRanges f) s = true
     ∧ (In s (filterAndSort l f a) ↔
          In s l
          ∧ matchesSearch (toLowerCase (trim (search f))) s = true
          ∧ matchesArchive a s = true
          ∧ matchesTags (filter_tags f) s = true
          ∧ matchesSale (filter_onSale f) s = true
          ∧ matchesCustomFields (filter_customFields f) s = true)).
Proof.
  assert (Hin : priceRanges f ≠ [] → In s (filterAndSort l f a) →
                priceRange s ≠ "" ∧ In (getPriceBucket (priceRange s)) (priceRanges f)).
  { intros Hne Hs. apply filterAndSort_In in Hs as [_ Hm].
    apply storeMatches_clauses in Hm as (_ & _ & _ & _ & Hp & _).
    apply matchesPrice_spec in Hp as [Hnil|Hp]; [contradiction|exact Hp]. }
  split; [exact Hin|]. split; [|split].
  - intros Hne Hbad Hs. destruct (Hin Hne Hs) as [Hset Hb]. tauto.
  - intros Hne Hids Hun Hs. destruct (Hin Hne Hs) as [_ Hb].
    apply Hun, Hids, Hb.
  - intros Hnil. split.
    + apply matchesPrice_spec. left. exact Hnil.
    + rewrite filterAndSort_In, storeMatches_clauses, matchesPrice_spec. tauto.
Qed.

(** C6. A store is in the result only if its archive flag (unset
    counting as not archived) equals the view flag; no store is in both
    the archived and the active view; the memoised list of the
    component follows [showArchived] in the same way. *)
Theorem archive_views_disjoint
    (l : list Store) (f f' : StoreFilters) (a : bool) (s : Store) :
  (In s (filterAndSort l f a) → truthyb (isArchived s) = a)
  ∧ ¬ (In s (filterAndSort l f true) ∧ In s (filterAndSort l f' false))
  ∧ (∀ st, In s (filteredStores st) → truthyb (isArchived s) = showArchived st).
Proof.
  assert (Hview : ∀ m g b, In s (filterAndSort m g b) → truthyb (isArchived s) = b).
  { intros m g b Hs. apply filterAndSort_In in Hs as [_ Hm].
    apply storeMatches_clauses in Hm as (_ & Ha & _).
    unfold matchesArchive in Ha.
    destruct b, (truthyb (isArchived s)); simpl in Ha; congruence. }
  split; [apply Hview|]. split.
  - intros [Ht Hf]. apply Hview in Ht. apply Hview in Hf. congruence.
  - intros st Hs. unfold filteredStores in Hs.
    destruct (activeCollection st) as [c|]; [|destruct Hs].
    destruct (user st); [|destruct Hs]. apply Hview in Hs. exact Hs.
Qed.

Lemma getProperty_cases (o : gmap string (list string)) (field : string) :
  match getProperty o field with
  | OwnArray values => o !! field = Some values
  | InheritedMember => o !! field = None ∧ In field objectPrototypeMembers
  | Undefined => o !! field = None ∧ ¬ In field objectPrototypeMembers
  end.
Proof.
  unfold getProperty. destruct (o !! field); [reflexivity|].
  destruct (arrayIncludes objectPrototypeMembers field) eqn:Hinc.
  - split; [reflexivity|apply arrayIncludes_In, Hinc].
  - split; [reflexivity|]. intros Hin. apply arrayIncludes_In in Hin. congruence.
Qed.

Lemma matchesFieldJs_returns_true (s : Store) (field : string) (options : list string) :
  matchesFieldJs s (field, options) = Returns true ↔
    (options ≠ [] →
     ∃ v, In v options ∧ In v (default [] (customFields s !! field))).
Proof.
  unfold matchesFieldJs. simpl fst. simpl snd.
  destruct options as [|o options].
  - simpl. split; [intros _ Hne; congruence|reflexivity].
  - assert (Hlen : (length (o :: options) =? 0)%nat = false) by reflexivity.
    assert (Hne : o :: options ≠ []) by discriminate.
    revert Hlen Hne. generalize (o :: options). clear o options.
    intros options Hlen Hne. rewrite Hlen.
    pose proof (getProperty_cases (customFields s) field) as Hg.
    destruct (getProperty (customFields s) field) as [values| |].
    + rewrite Hg. simpl default. split.
      * intros Heq _. injection Heq as Heq.
        apply existsb_exists in Heq as (v & Hv & Hinc).
        exists v. split; [exact Hv|apply arrayIncludes_In, Hinc].
      * intros Hex. destruct (Hex Hne) as (v & Hv & Hinc).
        f_equal. apply existsb_exists. exists v.
        split; [exact Hv|apply arrayIncludes_In, Hinc].
    + destruct Hg as [Hg _]. rewrite Hg. simpl default. split; [discriminate|].
      intros Hex. destruct (Hex Hne) as (v & _ & []).
    + destruct Hg as [Hg _]. rewrite Hg. simpl default. split.
      * intros Heq. injection Heq as Heq.
        apply existsb_exists in Heq as (v & _ & Hinc). discriminate Hinc.
      * intros Hex. destruct (Hex Hne) as (v & _ & []).
Qed.


Lemma matchesField_returns (s : Store) (entry : string * list string) :
  matchesField s entry = true ↔ matchesFieldJs s entry = Returns true.
Proof.
  unfold matchesField. destruct (matchesFieldJs s entry) as [[]|]; split; congruence.
Qed.

Lemma matchesField_reading (s : Store) (field : string) (options : list string) :
  matchesField s (field, options)
  = if (length options =? 0)%nat then true
    else existsb (fun opt => arrayIncludes (default [] (customFields s !! field)) opt)
           options.
Proof.
  unfold matchesField, matchesFieldJs, getProperty. simpl fst. simpl snd.
  destruct (length options =? 0)%nat; [reflexivity|].
  destruct (customFields s !! field) as [values|]; [reflexivity|].
  destruct (arrayIncludes objectPrototypeMembers field); [|reflexivity].
  simpl default. induction options as [|o options IH]; [reflexivity|exact IH].
Qed.

Lemma everyJs_returns_true {A} (callback : A → Outcome bool) (l : list A) :
  everyJs callback l = Returns true ↔ ∀ x, In x l → callback x = Returns true.
Proof.
  induction l as [|x l IH]; simpl.
  - split; [intros _ y []|reflexivity].
  - destruct (callback x) as [[]|] eqn:Hx.
    + rewrite IH. split.
      * intros Hall y [<-|Hy]; [exact Hx|apply Hall, Hy].
      * intros Hall y Hy. apply Hall. right. exact Hy.
    + split; [discriminate|]. intros Hall.
      specialize (Hall x (or_introl eq_refl)). congruence.
    + split; [discriminate|]. intros Hall.
      specialize (Hall x (or_introl eq_refl)). congruence.
Qed.

Lemma everyJs_returns_false {A} (callback : A → Outcome bool) (l : list A) :
  everyJs callback l = Returns false → ∃ x, In x l ∧ callback x = Returns false.
Proof.
  induction l as [|x l IH]; simpl; [discriminate|].
  destruct (callback x) as [[]|] eqn:Hx.
  - intros Hl. destruct (IH Hl) as (y & Hy & Hfalse). exists y. tauto.
  - intros _. exists x. tauto.
  - discriminate.
Qed.


Lemma everyJs_skip {A} (callback : A → Outcome bool) (l1 l2 : list A) (x : A) :
  callback x = Returns true →
  everyJs callback (l1 ++ x :: l2) = everyJs callback (l1 ++ l2).
Proof.
  intros Hx. induction l1 as [|y l1 IH]; simpl.
  - rewrite Hx. reflexivity.
  - destruct (callback y) as [[]|]; [exact IH|reflexivity|reflexivity].
Qed.

Lemma matchesCustomFields_returns_true
    (cf : gmap string (list string)) (entries : list (string * list string))
    (s : Store) :
  entries ≡ₚ map_to_list cf →
  (matchesCustomFields cf s = true ↔ matchesCustomFieldsJs entries s = Returns true).
Proof.
  intros Hperm. unfold matchesCustomFields, matchesCustomFieldsJs.
  rewrite forallb_forall, everyJs_returns_true. split.
  - intros Hall e He. apply matchesField_returns, Hall.
    apply (Permutation_in _ Hperm), He.
  - intros Hall e He. apply matchesField_returns, Hall.
    apply (Permutation_in _ (Permutation_sym Hperm)), He.
Qed.

Lemma matchesCustomFields_returns
    (cf : gmap string (list string)) (entries : list (string * list string))
    (s : Store) (b : bool) :
  entries ≡ₚ map_to_list cf →
  matchesCustomFieldsJs entries s = Returns b → matchesCustomFields cf s = b.
Proof.
  intros Hperm Hret. destruct b.
  - apply (matchesCustomFields_returns_true cf entries s Hperm), Hret.
  - apply not_true_is_false. intros Htrue.
    apply (matchesCustomFields_returns_true cf entries s Hperm) in Htrue.
    congruence.
Qed.

Lemma storeMatchesJs_returns
    (entries : list (string * list string)) (f : StoreFilters) (a : bool)
    (s : Store) (b : bool) :
  entries ≡ₚ map_to_list (filter_customFields f) →
  storeMatchesJs entries f a s = Returns b → storeMatches f a s = b.
Proof.
  intros Hperm. unfold storeMatchesJs, storeMatches.
  destruct (matchesCustomFieldsJs entries s) as [m|] eqn:Hm; [|discriminate].
  rewrite (matchesCustomFields_returns _ _ _ _ Hperm Hm).
  intros Heq. injection Heq as <-. reflexivity.
Qed.


Lemma filterJs_returns {A} (callback : A → Outcome bool) (p : A → bool)
    (l r : list A) :
  (∀ x b, In x l → callback x = Returns b → p x = b) →
  filterJs callback l = Returns r → r = List.filter p l.
Proof.
  revert r. induction l as [|x l IH]; simpl; intros r Hagree.
  - congruence.
  - destruct (callback x) as [b|] eqn:Hx; [|discriminate].
    destruct (filterJs callback l) as [r'|]; [|discriminate].
    intros Heq. injection Heq as <-.
    rewrite (Hagree x b (or_introl eq_refl) Hx).
    rewrite (IH r') by (auto || reflexivity). reflexivity.
Qed.


Lemma filterAndSortJs_returns
    (entries : list (string * list string)) (l : list Store) (f : StoreFilters)
    (a : bool) (r : list Store) :
  entries ≡ₚ map_to_list (filter_customFields f) →
  filterAndSortJs entries l f a = Returns r → r = filterAndSort l f a.
Proof.
  intros Hperm. unfold filterAndSortJs, filterAndSort.
  destruct (filterJs (storeMatchesJs entries f a) l) as [kept|] eqn:Hk; [|discriminate].
  intros Heq. injection Heq as <-. f_equal.
  apply (filterJs_returns _ _ _ _ (fun x b _ => storeMatchesJs_returns entries f a x b Hperm) Hk).
Qed.


(** C7. The custom-field clause, [Object.entries(customFields).every]
    with its callback, returns [true] on a store exactly when every
    filter field with a non-empty option list has one of its options
    among the store's values for that field, whatever the order of the
    entries. A field with an empty option list constrains nothing: its
    callback returns [true], and the entry can be taken out of the list
    without changing the outcome. A store without values for a
    constrained field does not satisfy that field's clause, nor the
    whole clause. Every store of a list the filter returns satisfies
    the clause. *)
Theorem customFields_clause_spec
    (cf : gmap string (list string)) (entries : list (string * list string))
    (s : Store) :
  entries ≡ₚ map_to_list cf →
  (matchesCustomFieldsJs entries s = Returns true ↔
     ∀ field options, cf !! field = Some options → options ≠ [] →
       ∃ v, In v options ∧ In v (default [] (customFields s !! field)))
  ∧ (∀ field, matchesFieldJs s (field, []) = Returns true)
  ∧ (∀ field before after,
       matchesCustomFieldsJs (before ++ (field, []) :: after) s
       = matchesCustomFieldsJs (before ++ after) s)
  ∧ (∀ field options, cf !! field = Some options → options ≠ [] →
       default [] (customFields s !! field) = [] →
       matchesFieldJs s (field, options) ≠ Returns true
       ∧ matchesCustomFieldsJs entries s ≠ Returns true)
  ∧ (∀ l f a r, filter_customFields f = cf →
       filterAndSortJs entries l f a = Returns r → In s r →
       matchesCustomFieldsJs entries s = Returns true)
  ∧ (∀ l f a, filter_customFields f = cf → In s (filterAndSort l f a) →
       matchesCustomFieldsJs entries s = Returns true).
Proof.
  intros Hperm.
  assert (Hspec : matchesCustomFieldsJs entries s = Returns true ↔
     ∀ field options, cf !! field = Some options → options ≠ [] →
       ∃ v, In v options ∧ In v (default [] (customFields s !! field))).
  { unfold matchesCustomFieldsJs. rewrite everyJs_returns_true. split.
    - intros Hall field options Hlook.
      apply matchesFieldJs_returns_true, Hall.
      apply (Permutation_in _ (Permutation_sym Hperm)).
      apply list_elem_of_In, elem_of_map_to_list, Hlook.
    - intros Hall [field options] Hin.
      apply (Permutation_in _ Hperm), list_elem_of_In, elem_of_map_to_list in Hin.
      apply matchesFieldJs_returns_true, Hall, Hin. }
  assert (Hresult : ∀ l f a, filter_customFields f = cf →
            In s (filterAndSort l f a) →
            matchesCustomFieldsJs entries s = Returns true).
  { intros l f a <- Hs. apply filterAndSort_In in Hs as [_ Hm].
    apply storeMatches_clauses in Hm.
    apply (matchesCustomFields_returns_true _ entries s Hperm). tauto. }
  split; [exact Hspec|].
  split; [intros field; reflexivity|].
  split; [intros field before after; apply everyJs_skip; reflexivity|].
  split; [|split].
  - intros field options Hlook Hne Hnone. split.
    + intros Hm.
      destruct (proj1 (matchesFieldJs_returns_true s field options) Hm Hne)
        as (v & _ & Hv).
      rewrite Hnone in Hv. destruct Hv.
    + intros Hm. destruct (proj1 Hspec Hm field options Hlook Hne) as (v & _ & Hv).
      rewrite Hnone in Hv. destruct Hv.
  - intros l f a r Hcf Hret Hs. apply (Hresult l f a Hcf).
    subst cf. rewrite <- (filterAndSortJs_returns entries l f a r Hperm Hret).
    exact Hs.
  - exact Hresult.
Qed.

End FilterProperties.

(** ** Monotonicity of the tag and price facets *)

Lemma addOne_incl (x : string) (old new : list string) :
  addOne x old new → incl old new.
Proof.
  intros (l1 & l2 & -> & ->) y Hy.
  apply in_app_iff in Hy. apply in_app_iff. simpl. tauto.
Qed.

Lemma filter_shrinks {A} (p q : A → bool) (l : list A) :
  (∀ x, In x l → p x = true → q x = true) →
  incl (List.filter p l) (List.filter q l)
  ∧ (length (List.filter p l) ≤ length (List.filter q l))%nat.
Proof.
  intros Himp. split.
  - intros x Hx. apply List.filter_In in Hx as [Hin Hp].
    apply List.filter_In. split; [exact Hin|apply Himp; assumption].
  - induction l as [|y l IH]; simpl; [lia|].
    assert (IH' : (length (List.filter p l) ≤ length (List.filter q l))%nat).
    { apply IH. intros x Hx. apply Himp. right. exact Hx. }
    destruct (p y) eqn:Hp.
    + rewrite (Himp y (or_introl eq_refl) Hp). simpl. lia.
    + destruct (q y); simpl; lia.
Qed.

Section Monotonicity.
Context `{TF : TextFormatter} `{PM : PriceMapper} `{L10n : Localization}.

Lemma matchesTags_spec (ts : list string) (s : Store) :
  matchesTags ts s = true ↔ ∀ tg, In tg ts → In tg (tags s).
Proof.
  unfold matchesTags. rewrite orb_true_iff, length_zero_nil, forallb_forall.
  split.
  - intros [->|Hall] tg Hin; [destruct Hin|]. apply arrayIncludes_In, Hall, Hin.
  - intros Hall. right. intros tg Hin. apply arrayIncludes_In, Hall, Hin.
Qed.

Lemma filterAndSort_shrinks (l : list Store) (f g : StoreFilters) (a : bool) :
  (∀ s, storeMatches f a s = true → storeMatches g a s = true) →
  incl (filterAndSort l f a) (filterAndSort l g a)
  ∧ (length (filterAndSort l f a) ≤ length (filterAndSort l g a))%nat.
Proof.
  intros Himp. unfold filterAndSort.
  destruct (filter_shrinks (storeMatches f a) (storeMatches g a) l) as [Hincl Hlen].
  { intros s _. apply Himp. }
  split.
  - intros s Hs. apply sortBy_In. apply sortBy_In in Hs. apply Hincl, Hs.
  - rewrite !sortBy_length. exact Hlen.
Qed.

(** C5 (amended). Adding a tag to the tag facet can only shrink the
    result; adding a bucket to a price facet that already holds a
    bucket can only grow it. *)
Theorem facet_monotonicity
    (l : list Store) (f : StoreFilters) (a : bool) (x : string) (new : list string) :
  (addOne x (filter_tags f) new →
     incl (filterAndSort l (set_filter_tags new f) a) (filterAndSort l f a)
     ∧ (length (filterAndSort l (set_filter_tags new f) a)
        ≤ length (filterAndSort l f a))%nat)
  ∧ (priceRanges f ≠ [] → addOne x (priceRanges f) new →
     incl (filterAndSort l f a) (filterAndSort l (set_priceRanges new f) a)
     ∧ (length (filterAndSort l f a)
        ≤ length (filterAndSort l (set_priceRanges new f) a))%nat).
Proof.
  split.
  - intros Hadd. apply filterAndSort_shrinks. intros s.
    rewrite !storeMatches_clauses. simpl.
    intros (Hs & Ha & Ht & Hrest). repeat split; try tauto.
    rewrite matchesTags_spec in Ht |- *.
    intros tg Hin. apply Ht, (addOne_incl _ _ _ Hadd), Hin.
  - intros Hne Hadd. apply filterAndSort_shrinks. intros s.
    rewrite !storeMatches_clauses. simpl.
    intros (Hs & Ha & Ht & Hsale & Hp & Hcf). repeat split; try tauto.
    rewrite matchesPrice_spec in Hp |- *.
    destruct Hp as [Hnil|[Hset Hin]]; [contradiction|].
    right. split; [exact Hset|]. apply (addOne_incl _ _ _ Hadd), Hin.
Qed.

End Monotonicity.

(** C5, as stated, fails: selecting a first bucket turns the price
    clause from vacuous to restrictive, and the store without a price
    leaves the result. *)
Lemma first_bucket_shrinks_result :
  addOne "low" (priceRanges noFilters) ["low"]
  ∧ refFilterAndSort [bareStore "s1" "Acme"] noFilters false = [bareStore "s1" "Acme"]
  ∧ refFilterAndSort [bareStore "s1" "Acme"] (set_priceRanges ["low"] noFilters) false = []
  ∧ ¬ incl (refFilterAndSort [bareStore "s1" "Acme"] noFilters false)
        (refFilterAndSort [bareStore "s1" "Acme"] (set_priceRanges ["low"] noFilters) false).
Proof.
  split; [exists [], []; split; reflexivity|].
  split; [vm_compute; reflexivity|]. split; [vm_compute; reflexivity|].
  intros Hincl. apply (Hincl (bareStore "s1" "Acme")). vm_compute. left. reflexivity.
Qed.

(** ** Result ordering *)

Section SortedProperties.
Context {A : Type} (cmp : A → A → Z).

Hypothesis cmp_total : ∀ x y, leBy cmp x y ∨ leBy cmp y x.

Lemma insertBy_HdRel (a x : A) (l : list A) :
  leBy cmp a x → HdRel (leBy cmp) a l → HdRel (leBy cmp) a (insertBy cmp x l).
Proof.
  intros Hax Hal. destruct l as [|y l]; simpl.
  - constructor. exact Hax.
  - destruct (cmp x y <=? 0); constructor; [exact Hax|].
    inversion Hal; assumption.
Qed.

Lemma insertBy_Sorted (x : A) (l : list A) :
  Sorted (leBy cmp) l → Sorted (leBy cmp) (insertBy cmp x l).
Proof.
  induction l as [|y l IH]; intros Hs; simpl.
  - repeat constructor.
  - destruct (cmp x y <=? 0) eqn:Hxy.
    + constructor; [exact Hs|]. constructor. unfold leBy. lia.
    + inversion Hs as [|? ? Hl Hhd]; subst.
      constructor; [apply IH, Hl|].
      apply insertBy_HdRel; [|exact Hhd].
      destruct (cmp_total x y) as [Hle|Hle]; [unfold leBy in Hle; lia|exact Hle].
Qed.

Lemma sortBy_Sorted (l : list A) : Sorted (leBy cmp) (sortBy cmp l).
Proof.
  induction l as [|x l IH]; simpl; [constructor|].
  apply insertBy_Sorted, IH.
Qed.

End SortedProperties.

Section Ordering.
Context `{TF : TextFormatter} `{PM : PriceMapper} `{L10n : Localization}.
Context `{NO : !NameOrder}.

Lemma filter_Permutation {A} (p : A → bool) (l l' : list A) :
  Permutation l l' → Permutation (List.filter p l) (List.filter p l').
Proof.
  induction 1 as [|x l l' _ IH|x y l|l l' l'' _ IH1 _ IH2]; simpl.
  - reflexivity.
  - destruct (p x); [apply perm_skip|]; exact IH.
  - destruct (p x), (p y); try reflexivity. apply perm_swap.
  - etransitivity; eassumption.
Qed.

Lemma insertBy_same_name (n : string) (x : Store) (l : list Store) :
  List.filter (hasName n) (insertBy compareStores x l)
  = List.filter (hasName n) (x :: l).
Proof.
  induction l as [|y l IH]; [reflexivity|].
  simpl insertBy. destruct (compareStores x y <=? 0) eqn:Hxy; [reflexivity|].
  change (List.filter (hasName n) (y :: insertBy compareStores x l))
    with (if hasName n y then y :: List.filter (hasName n) (insertBy compareStores x l)
          else List.filter (hasName n) (insertBy compareStores x l)).
  rewrite IH. simpl.
  destruct (hasName n x) eqn:Hx, (hasName n y) eqn:Hy; try reflexivity.
  unfold hasName in Hx, Hy. apply String.eqb_eq in Hx, Hy.
  unfold compareStores in Hxy. rewrite Hx, Hy in Hxy.
  destruct (compare_total n n); lia.
Qed.

Lemma sortBy_same_name (n : string) (l : list Store) :
  List.filter (hasName n) (sortBy compareStores l) = List.filter (hasName n) l.
Proof.
  induction l as [|x l IH]; [reflexivity|].
  simpl sortBy. rewrite insertBy_same_name. simpl. rewrite IH. reflexivity.
Qed.

(** C8 (amended). The result is sorted by [compareStoreNames] on
    [store_name]. Two arrangements of the same store list give the same
    ordered result when stores of the list that share a name are one and
    the same store; in particular two stores whose names differ, be it
    only by case, come out in one order whichever comes first in the
    input. Stores of one name keep the order they have in the input. *)
Theorem result_order_independent_of_input
    (l l' : list Store) (f : StoreFilters) (a : bool) :
  Sorted (leBy compareStores) (filterAndSort l f a)
  ∧ (Permutation l l' →
     (∀ x y, In x l → In y l → store_name x = store_name y → x = y) →
     filterAndSort l f a = filterAndSort l' f a)
  ∧ (∀ x y, store_name x ≠ store_name y →
     toLowerCase (store_name x) = toLowerCase (store_name y) →
     filterAndSort [x; y] f a = filterAndSort [y; x] f a)
  ∧ (∀ n, List.filter (hasName n) (filterAndSort l f a)
          = List.filter (hasName n) (List.filter (storeMatches f a) l)).
Proof.
  assert (Htot : ∀ x y, leBy compareStores x y ∨ leBy compareStores y x).
  { intros x y. unfold leBy, compareStores. apply compare_total. }
  assert (Htrans : Transitive (leBy compareStores)).
  { intros x y z. unfold leBy, compareStores. apply compare_trans. }
  assert (Hmain : ∀ m m', Permutation m m' →
     (∀ x y, In x m → In y m → store_name x = store_name y → x = y) →
     filterAndSort m f a = filterAndSort m' f a).
  { intros m m' Hperm Hnames. unfold filterAndSort.
    apply (Sorted_unique_strong (leBy compareStores)).
    - intros x y Hx Hy Hxy Hyx.
      apply list_elem_of_In, sortBy_In, List.filter_In in Hx as [Hx _].
      apply list_elem_of_In, sortBy_In, List.filter_In in Hy as [Hy _].
      apply Hnames; [exact Hx|apply (Permutation_in _ (Permutation_sym Hperm) Hy)|].
      unfold leBy, compareStores in Hxy, Hyx. apply compare_antisym; assumption.
    - apply sortBy_Sorted, Htot.
    - apply sortBy_Sorted, Htot.
    - rewrite !sortBy_Permutation. apply filter_Permutation, Hperm. }
  split; [apply sortBy_Sorted, Htot|]. split; [apply Hmain|]. split.
  - intros x y Hne _. apply Hmain; [apply perm_swap|].
    intros u v [<-|[<-|[]]] [<-|[<-|[]]] Heq; congruence.
  - intros n. apply sortBy_same_name.
Qed.

(** Under any comparator on names, two different stores of one name
    come out in an order that depends on their order in the input. *)
Lemma same_name_order_follows_input (x y : Store) (f : StoreFilters) (a : bool) :
  x ≠ y → store_name x = store_name y →
  storeMatches f a x = true → storeMatches f a y = true →
  filterAndSort [x; y] f a ≠ filterAndSort [y; x] f a.
Proof.
  intros Hne Hname Hx Hy. unfold filterAndSort. simpl. rewrite Hx, Hy. simpl.
  unfold compareStores. rewrite Hname.
  destruct (compareStoreNames (store_name y) (store_name y) <=? 0); congruence.
Qed.

End Ordering.

(** The reference comparator is a total order on names. *)

Lemma string_compare_refl (a : string) : String.compare a a = Eq.
Proof. apply OrderedTypeEx.String_as_OT.cmp_eq. reflexivity. Qed.

Lemma string_compare_lt_trans (a b c : string) :
  String.compare a b = Lt → String.compare b c = Lt → String.compare a c = Lt.
Proof.
  intros Hab Hbc.
  apply OrderedTypeEx.String_as_OT.cmp_lt.
  apply OrderedTypeEx.String_as_OT.lt_trans with b;
    apply OrderedTypeEx.String_as_OT.cmp_lt; assumption.
Qed.

Lemma string_compare_le_trans (a b c : string) :
  String.compare a b ≠ Gt → String.compare b c ≠ Gt → String.compare a c ≠ Gt.
Proof.
  intros Hab Hbc.
  destruct (String.compare a b) eqn:Eab; [| |congruence].
  - apply String.compare_eq_iff in Eab. subst. exact Hbc.
  - destruct (String.compare b c) eqn:Ebc; [| |congruence].
    + apply String.compare_eq_iff in Ebc. subst. rewrite Eab. discriminate.
    + rewrite (string_compare_lt_trans a b c Eab Ebc). discriminate.
Qed.

Lemma reference_compare_le (a b : string) :
  Reference.compareStoreNames a b <= 0 ↔
    String.compare (Reference.normalizeStoreName a) (Reference.normalizeStoreName b) = Lt
    ∨ (String.compare (Reference.normalizeStoreName a) (Reference.normalizeStoreName b) = Eq
       ∧ String.compare a b ≠ Gt).
Proof.
  unfold Reference.compareStoreNames.
  destruct (String.compare (Reference.normalizeStoreName a) _);
    destruct (String.compare a b); simpl; split; intros Hc;
    try lia; try tauto; try (right; split; [reflexivity|discriminate]);
    destruct Hc as [Hc|[Hc Hc']]; congruence.
Qed.

Lemma reference_NameOrder : NameOrder (TF:=Reference.textFormatter).
Proof.
  split; simpl.
  - intros a b. rewrite !reference_compare_le.
    rewrite (String.compare_antisym (Reference.normalizeStoreName a)).
    rewrite (String.compare_antisym a b).
    destruct (String.compare (Reference.normalizeStoreName b) _);
      destruct (String.compare b a); simpl;
      try (left; left; reflexivity); try (right; left; reflexivity);
      try (left; right; split; [reflexivity|discriminate]);
      right; right; split; [reflexivity|discriminate].
  - intros a b c. rewrite !reference_compare_le.
    intros [Hab|[Hab Hab']] [Hbc|[Hbc Hbc']].
    + left. eapply string_compare_lt_trans; eassumption.
    + left. apply String.compare_eq_iff in Hbc. rewrite <- Hbc. exact Hab.
    + left. apply String.compare_eq_iff in Hab. rewrite Hab. exact Hbc.
    + right. apply String.compare_eq_iff in Hab, Hbc. rewrite Hab, Hbc. split.
      * apply string_compare_refl.
      * eapply string_compare_le_trans; eassumption.
  - intros a b. rewrite !reference_compare_le.
    rewrite (String.compare_antisym (Reference.normalizeStoreName a)).
    rewrite (String.compare_antisym a b).
    destruct (String.compare (Reference.normalizeStoreName b) _) eqn:Ek;
      destruct (String.compare b a) eqn:Er; simpl;
      intros [Hc|[Hc Hc']] [Hd|[Hd Hd']]; try congruence.
    symmetry. apply String.compare_eq_iff. exact Er.
Qed.

Lemma price_facet_excludes_unclassified_witness :
  ¬ In freeStore (refFilterAndSort sampleCatalogue highOnly false)
  ∧ (In midStore (refFilterAndSort sampleCatalogue noFilters false)
     ↔ In midStore sampleCatalogue
       ∧ matchesSearch (L10n:=Reference.localization)
           (toLowerCase (trim (search noFilters))) midStore = true
       ∧ matchesArchive false midStore = true
       ∧ matchesTags (filter_tags noFilters) midStore = true
       ∧ matchesSale (filter_onSale noFilters) midStore = true
       ∧ matchesCustomFields (filter_customFields noFilters) midStore = true).
Proof.
  split.
  - apply (proj1 (proj2 (proj2 (price_facet_excludes_unclassified
             (TF:=Reference.textFormatter) (PM:=Reference.priceMapper)
             (L10n:=Reference.localization) sampleCatalogue highOnly false freeStore)))).
    + discriminate.
    + intros b [<-|[]]. vm_compute. tauto.
    + vm_compute. intuition discriminate.
  - apply (proj2 (proj2 (proj2 (price_facet_excludes_unclassified
             (TF:=Reference.textFormatter) (PM:=Reference.priceMapper)
             (L10n:=Reference.localization) sampleCatalogue noFilters false midStore)))).
    reflexivity.
Defined.

Lemma facet_monotonicity_witness :
  incl (refFilterAndSort sampleCatalogue (set_filter_tags ["vegan"; "sale"] noFilters) true)
       (refFilterAndSort sampleCatalogue (set_filter_tags ["vegan"] noFilters) true)
  ∧ incl (refFilterAndSort sampleCatalogue highOnly true)
         (refFilterAndSort sampleCatalogue (set_priceRanges ["high"; "mid"] highOnly) true).
Proof.
  split.
  - apply (proj1 (facet_monotonicity (TF:=Reference.textFormatter)
             (PM:=Reference.priceMapper) (L10n:=Reference.localization)
             sampleCatalogue (set_filter_tags ["vegan"] noFilters) true "sale" ["vegan"; "sale"])).
    exists ["vegan"], []. split; reflexivity.
  - apply (proj2 (facet_monotonicity (TF:=Reference.textFormatter)
             (PM:=Reference.priceMapper) (L10n:=Reference.localization)
             sampleCatalogue highOnly true "mid" ["high"; "mid"])).
    + discriminate.
    + exists ["high"], []. split; reflexivity.
Defined.

Lemma archive_views_disjoint_witness :
  truthyb (isArchived highStore) = true.
Proof.
  apply (proj1 (archive_views_disjoint (TF:=Reference.textFormatter)
           (PM:=Reference.priceMapper) (L10n:=Reference.localization)
           sampleCatalogue noFilters noFilters true highStore)).
  vm_compute. tauto.
Defined.

Lemma customFields_clause_spec_witness :
  matchesCustomFieldsJs (map_to_list leatherOnly) highStore = Returns true
  ∧ matchesCustomFieldsJs (map_to_list leatherOnly) freeStore ≠ Returns true
  ∧ matchesCustomFieldsJs [("constructor", ["x"])] freeStore ≠ Returns true.
Proof.
  split; [|split].
  - apply (proj2 (proj1 (customFields_clause_spec (TF:=Reference.textFormatter)
             (PM:=Reference.priceMapper) (L10n:=Reference.localization)
             leatherOnly (map_to_list leatherOnly) highStore
             (Permutation_refl _)))).
    intros field options Hlook Hne.
    destruct (decide (field = "Material")) as [->|Hm].
    + vm_compute in Hlook. injection Hlook as <-.
      exists "Leather". split; vm_compute; tauto.
    + destruct (decide (field = "Origin")) as [->|Ho].
      * vm_compute in Hlook. congruence.
      * unfold leatherOnly in Hlook.
        rewrite lookup_insert_ne, lookup_singleton_ne in Hlook by congruence.
        discriminate.
  - apply (proj2 (proj1 (proj2 (proj2 (proj2
             (customFields_clause_spec (TF:=Reference.textFormatter)
                (PM:=Reference.priceMapper) (L10n:=Reference.localization)
                leatherOnly (map_to_list leatherOnly) freeStore
                (Permutation_refl _))))) "Material" ["Leather"]
             eq_refl ltac:(discriminate) eq_refl)).
  - apply (proj2 (proj1 (proj2 (proj2 (proj2
             (customFields_clause_spec (TF:=Reference.textFormatter)
                (PM:=Reference.priceMapper) (L10n:=Reference.localization)
                {[ "constructor" := ["x"] ]} [("constructor", ["x"])] freeStore
                ltac:(rewrite map_to_list_singleton; reflexivity)))))
             "constructor" ["x"] eq_refl ltac:(discriminate) eq_refl)).
Defined.

Lemma result_order_independent_of_input_witness :
  refFilterAndSort [acmeUpper; acmeLower] noFilters false
  = refFilterAndSort [acmeLower; acmeUpper] noFilters false.
Proof.
  apply (proj1 (proj2 (result_order_independent_of_input
          (TF:=Reference.textFormatter) (PM:=Reference.priceMapper)
          (L10n:=Reference.localization) (NO:=reference_NameOrder)
          [acmeUpper; acmeLower] [acmeLower; acmeUpper] noFilters false))).
  - apply perm_swap.
  - intros x y [<-|[<-|[]]] [<-|[<-|[]]] Hname;
      try reflexivity; discriminate Hname.
Defined.

(** C8, as stated, fails: two stores of one name keep the order they
    have in the input, whatever the comparator on names. *)
Lemma same_name_stores_follow_input_order :
  Permutation [acmeUpper; acmeTwin] [acmeTwin; acmeUpper]
  ∧ refFilterAndSort [acmeUpper; acmeTwin] noFilters false = [acmeUpper; acmeTwin]
  ∧ refFilterAndSort [acmeTwin; acmeUpper] noFilters false = [acmeTwin; acmeUpper]
  ∧ ∀ (TF : TextFormatter) (PM : PriceMapper) (L10n : Localization),
      filterAndSort [acmeUpper; acmeTwin] noFilters false
      ≠ filterAndSort [acmeTwin; acmeUpper] noFilters false.
Proof.
  split; [apply perm_swap|]. split; [vm_compute; reflexivity|].
  split; [vm_compute; reflexivity|].
  intros TF PM L10n. apply same_name_order_follows_input.
  - discriminate.
  - reflexivity.
  - vm_compute. reflexivity.
  - vm_compute. reflexivity.
Qed.

(** ** Store creation and import *)

Section ImportProperties.
Context `{PM : PriceMapper}.

(** C9 (amended). The import keeps the supplied description, country,
    city, rating and sustainability, keeps the custom fields when they
    are supplied and takes the empty mapping when they are not,
    classifies the price through [getPriceBucket], and lower-cases and
    trims each supplied tag in place (one output tag per input tag).
    The manual add keeps a supplied non-empty price, and gives each of
    the description, country, city, price, rating, sustainability,
    custom fields and tags, when it is not supplied, its neutral value:
    the empty string for texts and the price, zero for the rating, the
    empty mapping for the custom fields and the empty list for the
    tags. *)
Theorem import_keeps_supplied_fields
    (uuid cid : string) (u : User) (s : ImportedStore)
    (c : Collection) (p : PartialStore) :
  description (importStore uuid cid u s) = i_description s
  ∧ country (importStore uuid cid u s) = i_country s
  ∧ city (importStore uuid cid u s) = i_city s
  ∧ rating (importStore uuid cid u s) = i_rating s
  ∧ sustainability (importStore uuid cid u s) = i_sustainability s
  ∧ (∀ cf, i_customFields s = Some cf → customFields (importStore uuid cid u s) = cf)
  ∧ (i_customFields s = None → customFields (importStore uuid cid u s) = ∅)
  ∧ priceRange (importStore uuid cid u s) = getPriceBucket (i_priceRange s)
  ∧ Forall2 (fun supplied tg => tg = trim (toLowerCase supplied))
      (i_tags s) (tags (importStore uuid cid u s))
  ∧ (∀ tg, In tg (tags (importStore uuid cid u s)) →
       trim tg = tg ∧ toLowerCase tg = tg)
  ∧ (∀ x, p_priceRange p = Some x → x ≠ "" → priceRange (newStore uuid c u p) = x)
  ∧ (p_priceRange p = None → priceRange (newStore uuid c u p) = "")
  ∧ (p_tags p = None → tags (newStore uuid c u p) = [])
  ∧ (p_description p = None → description (newStore uuid c u p) = Some "")
  ∧ (p_country p = None → country (newStore uuid c u p) = "")
  ∧ (p_city p = None → city (newStore uuid c u p) = "")
  ∧ (p_rating p = None → rating (newStore uuid c u p) = 0)
  ∧ (p_sustainability p = None → sustainability (newStore uuid c u p) = "")
  ∧ (p_customFields p = None → customFields (newStore uuid c u p) = ∅).
Proof.
  repeat match goal with |- _ ∧ _ => split end; simpl; try reflexivity.
  - intros cf ->. reflexivity.
  - intros ->. reflexivity.
  - induction (i_tags s); simpl; constructor; [reflexivity|assumption].
  - intros tg Hin. apply in_map_iff in Hin as (x & <- & _). split.
    + apply trim_idem.
    + rewrite <- trim_toLowerCase, toLowerCase_idem. reflexivity.
  - intros x -> Hx. destruct x; [congruence|reflexivity].
  - intros ->. reflexivity.
  - intros ->. reflexivity.
Qed.

End ImportProperties.

Lemma import_keeps_supplied_fields_witness :
  priceRange (newStore "id1" sampleCollection sampleUser formData) = "$$$"
  ∧ customFields (importStore (PM:=Reference.priceMapper) "id1" "c1" sampleUser importedRow)
    = ∅.
Proof.
  pose proof (import_keeps_supplied_fields (PM:=Reference.priceMapper)
                "id1" "c1" sampleUser importedRow sampleCollection formData)
    as (_ & _ & _ & _ & _ & _ & Hcf & _ & _ & _ & Hprice & _).
  split.
  - apply Hprice; [reflexivity|discriminate].
  - apply Hcf. reflexivity.
Defined.

(** C9, as stated, fails: the import leaves a tag twice in the list,
    and the manual add discards the supplied description and leaves
    the tags as typed. *)
Lemma normalization_counterexample :
  tags (importStore (PM:=Reference.priceMapper) "id1" "c1" sampleUser importedRow)
  = ["vegan"; "vegan"]
  ∧ p_description formData = Some "Fine shoes"
  ∧ description (newStore "id1" sampleCollection sampleUser formData) = Some ""
  ∧ tags (newStore "id1" sampleCollection sampleUser formData) = ["Vegan "; "vegan"].
Proof. repeat split. Qed.

(** ** Deletion *)

Lemma find_replaced (cid : string) (c c' : Collection) (cs : list Collection) :
  List.find (fun x => String.eqb (coll_id x) cid) cs = Some c →
  coll_id c' = coll_id c →
  List.find (fun x => String.eqb (coll_id x) cid)
    (List.map (fun x => if String.eqb (coll_id x) (coll_id c') then c' else x) cs)
  = Some c'.
Proof.
  intros Hfind Hid.
  assert (Hcid : coll_id c' = cid).
  { apply List.find_some in Hfind as [_ Heq]. apply String.eqb_eq in Heq. congruence. }
  rewrite Hcid. clear Hid.
  induction cs as [|x cs IH]; simpl in Hfind |- *; [discriminate|].
  destruct (String.eqb (coll_id x) cid) eqn:Hx.
  - rewrite Hcid, String.eqb_refl. reflexivity.
  - rewrite Hx. apply IH, Hfind.
Qed.

Lemma activeCollection_saveCollection (st : AppState) (c c' : Collection) (u : User) :
  activeCollection st = Some c → user st = Some u → coll_id c' = coll_id c →
  activeCollection (saveCollection c' st) = Some c'.
Proof.
  unfold activeCollection, saveCollection. intros Hact Hu Hid. rewrite Hu. simpl.
  destruct (activeCollectionId st) as [cid|]; [|discriminate].
  assert (Hex : existsb (fun x => String.eqb (coll_id x) (coll_id c')) (collections st) = true).
  { apply existsb_exists. exists c. apply List.find_some in Hact as [Hin _].
    split; [exact Hin|]. rewrite Hid. apply String.eqb_refl. }
  rewrite Hex. apply find_replaced with c; assumption.
Qed.

(** C10. A single delete removes the store from the store list of the
    active collection and leaves its folios as they were, so a folio
    that referred to the store still does; a bulk delete removes the
    selected stores and removes their ids from the [storeIds] of every
    folio. *)
Theorem delete_single_keeps_folios_bulk_cascades (st : AppState) (c : Collection) (u : User) :
  activeCollection st = Some c → user st = Some u →
  (∀ storeId, ∃ c',
      activeCollection (handleDeleteStore storeId st) = Some c'
      ∧ (∀ s, In s (stores c') ↔ In s (stores c) ∧ id s ≠ storeId)
      ∧ folios c' = folios c)
  ∧ (∃ c' fs,
      activeCollection (handleBulkDelete st) = Some c'
      ∧ (∀ s, In s (stores c') ↔ In s (stores c) ∧ id s ∉ selectedStoreIds st)
      ∧ folios c' = Some fs
      ∧ Forall2 (fun f f' =>
           folio_id f' = folio_id f
           ∧ ∀ i, In i (storeIds f') ↔ In i (storeIds f) ∧ i ∉ selectedStoreIds st)
          (default [] (folios c)) fs).
Proof.
  intros Hact Hu. split.
  - intros storeId. exists (deleteStore storeId c). split; [|split].
    + unfold handleDeleteStore. rewrite Hact.
      apply activeCollection_saveCollection with c u; auto.
    + intros s. simpl. rewrite List.filter_In, negb_true_iff, String.eqb_neq. reflexivity.
    + reflexivity.
  - exists (bulkDelete (selectedStoreIds st) c). eexists. split; [|split; [|split]].
    + unfold handleBulkDelete. rewrite Hact.
      apply (activeCollection_saveCollection st c _ u); auto.
    + intros s. simpl.
      rewrite List.filter_In, negb_true_iff, bool_decide_eq_false. reflexivity.
    + reflexivity.
    + induction (default [] (folios c)) as [|f fs IH]; simpl; constructor; [|exact IH].
      split; [reflexivity|]. intros i. simpl.
      rewrite List.filter_In, negb_true_iff, bool_decide_eq_false. reflexivity.
Qed.

Lemma delete_single_keeps_folios_bulk_cascades_witness :
  (∃ c',
      activeCollection (handleDeleteStore "p1" sampleState) = Some c'
      ∧ (∀ s, In s (stores c') ↔ In s (stores sampleCollection) ∧ id s ≠ "p1")
      ∧ folios c' = folios sampleCollection)
  ∧ List.map storeIds
      (default [] (folios (bulkDelete (selectedStoreIds sampleState) sampleCollection)))
    = [["p2"]].
Proof.
  split.
  - apply (proj1 (delete_single_keeps_folios_bulk_cascades
             sampleState sampleCollection sampleUser eq_refl eq_refl) "p1").
  - vm_compute. reflexivity.
Defined.

(** ** The handlers on the application state *)

Section HandlerProperties.
Context `{TF : TextFormatter} `{PM : PriceMapper} `{LM : Limits}.

(** The enrichment handler saves the merged store list and touches
    nothing else of the active collection. *)
Lemma handleEnrichComplete_active
    (enrichedStores : list Store) (st : AppState) (c : Collection) (u : User) :
  activeCollection st = Some c → user st = Some u →
  activeCollection (handleEnrichComplete enrichedStores st)
  = Some (set_stores (enrichStores enrichedStores (stores c)) c).
Proof.
  intros Hact Hu. unfold handleEnrichComplete. rewrite Hact.
  apply (activeCollection_saveCollection st c _ u); auto.
Qed.

(** The add handler appends the new store. *)
Lemma handleAddStore_active
    (uuid : string) (p : PartialStore) (st : AppState) (c : Collection) (u : User) :
  activeCollection st = Some c → user st = Some u →
  activeCollection (handleAddStore uuid p st)
  = Some (set_stores (stores c ++ [newStore uuid c u p]) c).
Proof.
  intros Hact Hu. unfold handleAddStore. rewrite Hact, Hu.
  apply (activeCollection_saveCollection st c _ u); auto.
Qed.

(** Without a signed-in user nothing is saved. *)
Lemma saveCollection_no_user (c : Collection) (st : AppState) :
  user st = None → saveCollection c st = st.
Proof. intros Hu. unfold saveCollection. rewrite Hu. reflexivity. Qed.

(** An import never leaves more stores than the collection may hold. *)
Lemma importInto_capped (replace : bool) (uuid : nat → string) (cid : string)
    (u : User) (rows : list ImportedStore) (c : Collection) :
  (length (stores (importInto replace uuid cid u rows c))
   ≤ MAX_STORES_PER_COLLECTION)%nat.
Proof. unfold importInto. simpl. rewrite length_firstn. lia. Qed.

End HandlerProperties.

(** The search and tag scenario of the design document: a store tagged
    "vegan" only is not found when both "vegan" and "sale" are required. *)
Example search_tag_scenario :
  refFilterAndSort [catalogueStore "z1" "Zed" "" ["vegan"] None ∅]
    {| search := "zed"; filter_tags := ["vegan"; "sale"]; filter_onSale := false;
       priceRanges := []; filter_customFields := ∅ |} false
  = [].
Proof. vm_compute. reflexivity. Qed.

Example filter_sorts_by_name :
  List.map store_name (refFilterAndSort sampleCatalogue noFilters false)
  = ["Gratis"; "Moyen"].
Proof. vm_compute. reflexivity. Qed.

(** * Further properties of the handlers *)

(** ** Saving and removing collections *)

Lemma record_eta_stores (c : Collection) : set_stores (stores c) c = c.
Proof. destruct c; reflexivity. Qed.

Lemma record_eta_storeIds (f : Folio) : set_storeIds (storeIds f) f = f.
Proof. destruct f; reflexivity. Qed.

Lemma find_app_last {A} (p : A → bool) (l : list A) (x : A) :
  existsb p l = false → p x = true → List.find p (l ++ [x]) = Some x.
Proof.
  intros Hno Hx. induction l as [|y l IH]; simpl in Hno |- *.
  - rewrite Hx. reflexivity.
  - apply orb_false_iff in Hno as [Hy Hl]. rewrite Hy. apply IH, Hl.
Qed.

Lemma existsb_find {A} (p : A → bool) (l : list A) :
  existsb p l = true → ∃ x, List.find p l = Some x.
Proof.
  induction l as [|y l IH]; simpl; [discriminate|].
  destruct (p y); [eauto|]. exact IH.
Qed.

Lemma map_replace_other (c x : Collection) (l : list Collection) :
  coll_id x ≠ coll_id c →
  (In x (List.map (fun y => if String.eqb (coll_id y) (coll_id c) then c else y) l)
   ↔ In x l).
Proof.
  intros Hne. rewrite in_map_iff. split.
  - intros (y & Hy & Hin). destruct (String.eqb (coll_id y) (coll_id c)); congruence.
  - intros Hin. exists x. split; [|exact Hin].
    apply String.eqb_neq in Hne. rewrite Hne. reflexivity.
Qed.

(** X1. [saveCollection] is an insert-or-replace keyed by the collection
    id: afterwards a lookup by that id gives the saved collection,
    collections of another id are exactly those there were, and the
    list grows by one only when the id was new. *)
Theorem saveCollection_upsert (c : Collection) (st : AppState) (u : User) :
  user st = Some u →
  List.find (fun x => String.eqb (coll_id x) (coll_id c))
    (collections (saveCollection c st)) = Some c
  ∧ (∀ x, coll_id x ≠ coll_id c →
       (In x (collections (saveCollection c st)) ↔ In x (collections st)))
  ∧ length (collections (saveCollection c st))
    = (if existsb (fun x => String.eqb (coll_id x) (coll_id c)) (collections st)
       then length (collections st) else S (length (collections st)))
  ∧ activeCollectionId (saveCollection c st) = activeCollectionId st.
Proof.
  intros Hu. unfold saveCollection. rewrite Hu. simpl.
  destruct (existsb _ (collections st)) eqn:Hex.
  - split; [|split; [|split]].
    + destruct (existsb_find _ _ Hex) as [c0 Hc0].
      apply find_replaced with c0; [exact Hc0|].
      apply List.find_some in Hc0 as [_ Heq]. apply String.eqb_eq in Heq. congruence.
    + intros x Hne. apply map_replace_other, Hne.
    + apply List.length_map.
    + reflexivity.
  - split; [|split; [|split]].
    + apply find_app_last; [exact Hex|apply String.eqb_refl].
    + intros x Hne. rewrite in_app_iff. simpl. split; [|tauto].
      intros [Hin|[Heq|[]]]; [exact Hin|congruence].
    + rewrite length_app. simpl. lia.
    + reflexivity.
Qed.

Lemma saveCollection_upsert_witness :
  List.find (fun x => String.eqb (coll_id x) "c1")
    (collections (saveCollection (set_stores [] sampleCollection) sampleState))
  = Some (set_stores [] sampleCollection).
Proof.
  apply (proj1 (saveCollection_upsert (set_stores [] sampleCollection)
                  sampleState sampleUser eq_refl)).
Defined.

(** X2. Saving the same collection twice is the same as saving it
    once. *)
Theorem saveCollection_idempotent (c : Collection) (st : AppState) :
  saveCollection c (saveCollection c st) = saveCollection c st.
Proof.
  unfold saveCollection. destruct (user st) as [u|] eqn:Hu; simpl; rewrite Hu; [|reflexivity].
  unfold set_collections. simpl. f_equal.
  destruct (existsb _ (collections st)) eqn:Hex.
  - assert (Hex' : existsb (fun x => String.eqb (coll_id x) (coll_id c))
              (List.map (fun x => if String.eqb (coll_id x) (coll_id c) then c else x)
                 (collections st)) = true).
    { apply existsb_exists in Hex as (x & Hin & Hx).
      apply existsb_exists. exists c. split; [|apply String.eqb_refl].
      apply in_map_iff. exists x. rewrite Hx. auto. }
    rewrite Hex', List.map_map. apply List.map_ext. intros x.
    destruct (String.eqb (coll_id x) (coll_id c)) eqn:Hx.
    + rewrite String.eqb_refl. reflexivity.
    + rewrite Hx. reflexivity.
  - assert (Hex' : existsb (fun x => String.eqb (coll_id x) (coll_id c))
              (collections st ++ [c]) = true).
    { rewrite existsb_app. simpl. rewrite String.eqb_refl, orb_true_r. reflexivity. }
    rewrite Hex', List.map_app. simpl. rewrite String.eqb_refl. f_equal.
    rewrite <- (List.map_id (collections st)) at 2.
    apply List.map_ext_in. intros x Hin.
    destruct (String.eqb (coll_id x) (coll_id c)) eqn:Hx; [|reflexivity].
    assert (existsb (fun x => String.eqb (coll_id x) (coll_id c)) (collections st) = true)
      by (apply existsb_exists; eauto).
    congruence.
Qed.

Lemma find_filter_other (cid j : string) (l : list Collection) :
  j ≠ cid →
  List.find (fun c => String.eqb (coll_id c) j)
    (List.filter (fun c => negb (String.eqb (coll_id c) cid)) l)
  = List.find (fun c => String.eqb (coll_id c) j) l.
Proof.
  intros Hne. induction l as [|x l IH]; simpl; [reflexivity|].
  destruct (String.eqb (coll_id x) cid) eqn:Hx; simpl.
  - apply String.eqb_eq in Hx. rewrite IH.
    assert (Hj : String.eqb (coll_id x) j = false)
      by (apply String.eqb_neq; congruence).
    rewrite Hj. reflexivity.
  - destruct (String.eqb (coll_id x) j); [reflexivity|exact IH].
Qed.

(** X3. Removing a collection leaves no collection of that id and keeps
    the others; the active collection is never the removed one: another
    active collection stays active, and when the active one is removed
    the first remaining collection, if any, becomes active. *)
Theorem handleRemoveCollection_active (cid : string) (st : AppState) (u : User) :
  user st = Some u →
  collections (handleRemoveCollection cid st)
  = List.filter (fun c => negb (String.eqb (coll_id c) cid)) (collections st)
  ∧ (∀ x, In x (collections (handleRemoveCollection cid st)) ↔
          In x (collections st) ∧ coll_id x ≠ cid)
  ∧ (∀ x, activeCollection (handleRemoveCollection cid st) = Some x → coll_id x ≠ cid)
  ∧ (activeCollectionId st ≠ Some cid →
     activeCollection (handleRemoveCollection cid st) = activeCollection st)
  ∧ (activeCollectionId st = Some cid →
     activeCollection (handleRemoveCollection cid st)
     = head (collections (handleRemoveCollection cid st))).
Proof.
  intros Hu.
  assert (Hcols : collections (handleRemoveCollection cid st)
    = List.filter (fun c => negb (String.eqb (coll_id c) cid)) (collections st)).
  { unfold handleRemoveCollection. rewrite Hu.
    destruct (activeCollectionId st) as [j|]; [|reflexivity].
    destruct (String.eqb j cid); reflexivity. }
  assert (Hother : activeCollectionId st ≠ Some cid →
     activeCollection (handleRemoveCollection cid st) = activeCollection st).
  { intros Hne. unfold activeCollection. rewrite Hcols.
    unfold handleRemoveCollection. rewrite Hu.
    destruct (activeCollectionId st) as [j|] eqn:Hj; simpl; [|rewrite Hj; reflexivity].
    destruct (String.eqb j cid) eqn:Hjc.
    - apply String.eqb_eq in Hjc. congruence.
    - simpl. rewrite Hj. apply find_filter_other. apply String.eqb_neq, Hjc. }
  assert (Hsame : activeCollectionId st = Some cid →
     activeCollection (handleRemoveCollection cid st)
     = head (collections (handleRemoveCollection cid st))).
  { intros Hact. unfold activeCollection. rewrite Hcols.
    unfold handleRemoveCollection. rewrite Hu, Hact, String.eqb_refl.
    destruct (List.filter _ (collections st)) as [|first rest]; simpl; [reflexivity|].
    rewrite String.eqb_refl. reflexivity. }
  split; [exact Hcols|]. split; [|split; [|split; [exact Hother|exact Hsame]]].
  - intros x. rewrite Hcols, List.filter_In, negb_true_iff, String.eqb_neq. reflexivity.
  - intros x Hx. unfold activeCollection in Hx.
    destruct (activeCollectionId (handleRemoveCollection cid st)) as [j|]; [|discriminate].
    apply List.find_some in Hx as [Hin _]. rewrite Hcols in Hin.
    apply List.filter_In in Hin as [_ Hk].
    apply negb_true_iff, String.eqb_neq in Hk. exact Hk.
Qed.

Lemma handleRemoveCollection_active_witness :
  activeCollection (handleRemoveCollection "c1" sampleState) = None
  ∧ activeCollection (handleRemoveCollection "c9" sampleState)
    = activeCollection sampleState.
Proof.
  pose proof (handleRemoveCollection_active "c1" sampleState sampleUser eq_refl)
    as (_ & _ & _ & _ & Hsame).
  pose proof (handleRemoveCollection_active "c9" sampleState sampleUser eq_refl)
    as (_ & _ & _ & Hother & _).
  split.
  - rewrite Hsame; reflexivity.
  - apply Hother. discriminate.
Defined.

(** ** Editing and archiving stores *)

(** X4. An edit replaces the stores that carry the id of the edited
    store, position by position, and nothing else: the list keeps its
    length, stores of another id and the folios stay as they are, and
    an edit whose id no store carries changes nothing. *)
Theorem editStore_replaces_by_id (updatedStore : Store) (c : Collection) :
  length (stores (editStore updatedStore c)) = length (stores c)
  ∧ (∀ k s, stores c !! k = Some s →
       stores (editStore updatedStore c) !! k
       = Some (if String.eqb (id s) (id updatedStore) then updatedStore else s))
  ∧ (∀ s, In s (stores (editStore updatedStore c)) → id s = id updatedStore →
       s = updatedStore)
  ∧ folios (editStore updatedStore c) = folios c
  ∧ ((∀ s, In s (stores c) → id s ≠ id updatedStore) →
       editStore updatedStore c = c)
  ∧ (∀ st u, activeCollection st = Some c → user st = Some u →
       activeCollection (handleEditStore updatedStore st)
       = Some (editStore updatedStore c)).
Proof.
  split; [apply List.length_map|]. split; [|split; [|split; [reflexivity|split]]].
  - intros k s Hk. simpl. rewrite list_lookup_fmap, Hk. reflexivity.
  - intros s Hin Hid. simpl in Hin. apply in_map_iff in Hin as (x & Hx & _).
    destruct (String.eqb (id x) (id updatedStore)) eqn:Heq; [congruence|].
    apply String.eqb_neq in Heq. congruence.
  - intros Hno. unfold editStore.
    assert (Hmap : List.map
              (fun s => if String.eqb (id s) (id updatedStore) then updatedStore else s)
              (stores c) = stores c).
    { rewrite <- (List.map_id (stores c)) at 2.
      apply List.map_ext_in. intros s Hin.
      apply Hno, String.eqb_neq in Hin. rewrite Hin. reflexivity. }
    rewrite Hmap. apply record_eta_stores.
  - intros st u Hact Hu. unfold handleEditStore. rewrite Hact.
    apply (activeCollection_saveCollection st c _ u); auto.
Qed.

Lemma editStore_replaces_by_id_witness :
  editStore (bareStore "unknown" "Nobody") sampleCollection = sampleCollection.
Proof.
  apply (proj1 (proj2 (proj2 (proj2 (proj2
           (editStore_replaces_by_id (bareStore "unknown" "Nobody") sampleCollection)))))).
  intros s [<-|[<-|[<-|[]]]]; discriminate.
Defined.

Section ArchiveProperties.
Context `{TF : TextFormatter} `{PM : PriceMapper} `{L10n : Localization}.

Lemma storeMatches_set_isArchived (f : StoreFilters) (b : bool) (x : Store) :
  storeMatches f b (set_isArchived (Some b) x)
  = storeMatches f (truthyb (isArchived x)) x.
Proof.
  unfold storeMatches, matchesArchive. simpl.
  destruct b, (truthyb (isArchived x)); reflexivity.
Qed.

(** X5. After archiving (or restoring) the stores of one id, those
    stores are shown only in the view of the new flag, and there under
    the facets under which they were shown in their own view before;
    for the stores of another id both views are as they were. *)
Theorem archiveStore_moves_between_views
    (storeId : string) (b : bool) (c : Collection) (f : StoreFilters) (a : bool)
    (s : Store) :
  (In s (filterAndSort (stores (archiveStore storeId b c)) f a) →
     id s = storeId → a = b)
  ∧ (id s ≠ storeId →
     (In s (filterAndSort (stores (archiveStore storeId b c)) f a)
      ↔ In s (filterAndSort (stores c) f a)))
  ∧ (In s (stores c) → id s = storeId →
     (In (set_isArchived (Some b) s)
         (filterAndSort (stores (archiveStore storeId b c)) f b)
      ↔ In s (filterAndSort (stores c) f (truthyb (isArchived s))))).
Proof.
  assert (Hin : ∀ x, In x (stores (archiveStore storeId b c)) ↔
            ∃ y, In y (stores c)
                 ∧ x = if String.eqb (id y) storeId then set_isArchived (Some b) y else y).
  { intros x. simpl. rewrite in_map_iff. split; intros (y & Hy & Hy'); eauto. }
  split; [|split].
  - intros Hs Hid. apply filterAndSort_In in Hs as [Hmem Hm].
    apply Hin in Hmem as (y & _ & Hy).
    destruct (String.eqb (id y) storeId) eqn:Heq.
    + subst s. apply storeMatches_clauses in Hm as (_ & Ha & _).
      unfold matchesArchive in Ha. simpl in Ha. destruct a, b; simpl in Ha; congruence.
    + apply String.eqb_neq in Heq. congruence.
  - intros Hne. rewrite !filterAndSort_In, Hin. split.
    + intros [(y & Hy & Heq) Hm]. split; [|exact Hm].
      destruct (String.eqb (id y) storeId) eqn:Hid; [|congruence].
      apply String.eqb_eq in Hid. subst s. simpl in Hne. congruence.
    + intros [Hs Hm]. split; [|exact Hm]. exists s. split; [exact Hs|].
      apply String.eqb_neq in Hne. rewrite Hne. reflexivity.
  - intros Hs Hid. rewrite !filterAndSort_In, Hin, storeMatches_set_isArchived. split.
    + intros [_ Hm]. auto.
    + intros [_ Hm]. split; [|exact Hm]. exists s. split; [exact Hs|].
      apply String.eqb_eq in Hid. rewrite Hid. reflexivity.
Qed.

End ArchiveProperties.

Lemma archiveStore_moves_between_views_witness :
  ¬ In (set_isArchived (Some true) midStore)
      (refFilterAndSort (stores (archiveStore "p3" true sampleCollection)) noFilters false)
  ∧ In (set_isArchived (Some true) midStore)
      (refFilterAndSort (stores (archiveStore "p3" true sampleCollection)) noFilters true).
Proof.
  split.
  - intros Hin.
    pose proof (proj1 (archiveStore_moves_between_views
      (TF:=Reference.textFormatter) (PM:=Reference.priceMapper)
      (L10n:=Reference.localization) "p3" true sampleCollection noFilters false
      (set_isArchived (Some true) midStore)) Hin eq_refl) as Hview.
    discriminate Hview.
  - apply (proj2 (proj2 (archiveStore_moves_between_views
      (TF:=Reference.textFormatter) (PM:=Reference.priceMapper)
      (L10n:=Reference.localization) "p3" true sampleCollection noFilters true midStore))).
    + simpl. tauto.
    + reflexivity.
    + vm_compute. tauto.
Defined.

(** X6. A single delete does not touch the selection: when the deleted
    store was selected its id stays in [selectedStoreIds], although no
    store of [selectedStores] carries it any more, so the selection can
    hold more ids than there are selected stores. *)
Theorem single_delete_leaves_stale_selection
    (storeId : string) (st : AppState) (c : Collection) (u : User) :
  activeCollection st = Some c → user st = Some u →
  selectedStoreIds (handleDeleteStore storeId st) = selectedStoreIds st
  ∧ (∀ s, In s (selectedStores (handleDeleteStore storeId st)) ↔
          In s (selectedStores st) ∧ id s ≠ storeId).
Proof.
  intros Hact Hu.
  assert (Hact' : activeCollection (handleDeleteStore storeId st)
                  = Some (deleteStore storeId c)).
  { unfold handleDeleteStore. rewrite Hact.
    apply (activeCollection_saveCollection st c _ u); auto. }
  assert (Hsel : selectedStoreIds (handleDeleteStore storeId st) = selectedStoreIds st).
  { unfold handleDeleteStore, saveCollection. rewrite Hact, Hu. reflexivity. }
  split; [exact Hsel|].
  intros s. unfold selectedStores. rewrite Hact', Hact, Hsel. simpl.
  rewrite !List.filter_In, negb_true_iff, String.eqb_neq. tauto.
Qed.

Lemma single_delete_leaves_stale_selection_witness :
  "p1" ∈ selectedStoreIds (handleDeleteStore "p1" sampleState)
  ∧ selectedStores (handleDeleteStore "p1" sampleState) = [].
Proof.
  split.
  - rewrite (proj1 (single_delete_leaves_stale_selection "p1" sampleState
               sampleCollection sampleUser eq_refl eq_refl)).
    vm_compute. reflexivity.
  - vm_compute. reflexivity.
Defined.

(** ** Folios *)

Lemma arrayFromSet_In (xs : list string) (x : string) :
  In x (arrayFromSet xs) ↔ In x xs.
Proof.
  induction xs as [|y xs IH]; simpl; [reflexivity|].
  rewrite List.filter_In, IH, negb_true_iff, String.eqb_neq.
  destruct (String.eqb_spec x y) as [->|Hne]; [tauto|].
  split; [tauto|]. intros [Heq|Hin]; [congruence|tauto].
Qed.

Lemma NoDup_filter {A} (p : A → bool) (l : list A) :
  NoDup l → NoDup (List.filter p l).
Proof.
  induction 1 as [|x l Hx _ IH]; simpl; [constructor|].
  destruct (p x); [|exact IH].
  constructor; [|exact IH]. rewrite list_elem_of_In, List.filter_In.
  rewrite list_elem_of_In in Hx. tauto.
Qed.

Lemma arrayFromSet_NoDup (xs : list string) : NoDup (arrayFromSet xs).
Proof.
  induction xs as [|y xs IH]; simpl; constructor.
  - rewrite list_elem_of_In, List.filter_In, negb_true_iff, String.eqb_neq. tauto.
  - apply NoDup_filter, IH.
Qed.

Lemma filter_absent (x : string) (l : list string) :
  ¬ In x l → List.filter (fun y => negb (String.eqb y x)) l = l.
Proof.
  induction l as [|y l IH]; simpl; [reflexivity|]. intros Hno.
  destruct (String.eqb_spec y x) as [->|Hne]; [tauto|].
  simpl. rewrite IH by tauto. reflexivity.
Qed.

Lemma arrayFromSet_NoDup_id (xs : list string) : NoDup xs → arrayFromSet xs = xs.
Proof.
  induction 1 as [|x l Hx _ IH]; simpl; [reflexivity|].
  rewrite IH, filter_absent; [reflexivity|]. rewrite <- list_elem_of_In. exact Hx.
Qed.

Lemma NoDup_snoc (l : list string) (x : string) :
  NoDup l → ¬ In x l → NoDup (l ++ [x]).
Proof.
  intros Hl Hx. apply NoDup_app. split; [exact Hl|]. split.
  - intros y Hy Hy'. apply list_elem_of_In in Hy, Hy'.
    destruct Hy' as [<-|[]]. tauto.
  - apply NoDup_singleton.
Qed.

Lemma filter_snoc_absent (l : list string) (x : string) :
  ¬ In x l → List.filter (fun y => negb (String.eqb y x)) (l ++ [x]) = l.
Proof.
  intros Hx. rewrite List.filter_app, filter_absent by exact Hx.
  simpl. rewrite String.eqb_refl. simpl. apply app_nil_r.
Qed.

Lemma arrayFromSet_snoc_present (l : list string) (x : string) :
  NoDup l → In x l → arrayFromSet (l ++ [x]) = l.
Proof.
  induction 1 as [|y l Hy Hl IH]; intros Hx; [destruct Hx|].
  rewrite list_elem_of_In in Hy. simpl.
  destruct (String.eqb_spec x y) as [->|Hne].
  - rewrite (arrayFromSet_NoDup_id (l ++ [y])) by (apply NoDup_snoc; assumption).
    rewrite filter_snoc_absent by exact Hy. reflexivity.
  - rewrite IH by (destruct Hx; [congruence|assumption]).
    rewrite filter_absent by exact Hy. reflexivity.
Qed.

Lemma arrayFromSet_prefix (l extra : list string) :
  NoDup l → ∃ rest, arrayFromSet (l ++ extra) = (l ++ rest)%list.
Proof.
  induction 1 as [|y l Hy Hl IH]; simpl; [eauto|].
  rewrite list_elem_of_In in Hy. destruct IH as [rest Hrest].
  exists (List.filter (fun z => negb (String.eqb z y)) rest).
  rewrite Hrest, List.filter_app, filter_absent by exact Hy. reflexivity.
Qed.

(** What a handler does to the folios through [updateFolio]. *)
Lemma updateFolio_folios (folioId : string) (g : Folio → Folio) (c : Collection) :
  default [] (folios (updateFolio folioId g c))
  = List.map (fun f => if String.eqb (folio_id f) folioId then g f else f)
      (default [] (folios c)).
Proof. reflexivity. Qed.

(** X7. Dropping a store on a folio, or adding the selection to it,
    leaves the folio with duplicate-free ids that are exactly the former
    ids and the added ones; a duplicate-free former list is kept as it
    is at the front. Folios of another id are not changed. *)
Theorem folio_add_keeps_ids_unique
    (added : list string) (folioId : string) (c : Collection) :
  Forall2
    (fun f f' =>
       if String.eqb (folio_id f) folioId then
         folio_id f' = folio_id f
         ∧ NoDup (storeIds f')
         ∧ (∀ i, In i (storeIds f') ↔ In i (storeIds f) ∨ In i added)
         ∧ (NoDup (storeIds f) → ∃ rest, storeIds f' = (storeIds f ++ rest)%list)
       else f' = f)
    (default [] (folios c))
    (default [] (folios (bulkAddToFolio added folioId c)))
  ∧ (∀ storeId, dropToFolio storeId folioId c = bulkAddToFolio [storeId] folioId c)
  ∧ stores (bulkAddToFolio added folioId c) = stores c.
Proof.
  split; [|split; reflexivity].
  unfold bulkAddToFolio. rewrite updateFolio_folios.
  induction (default [] (folios c)) as [|f fs IH]; simpl; constructor; [|exact IH].
  destruct (String.eqb (folio_id f) folioId); [|reflexivity].
  simpl. split; [reflexivity|]. split; [apply arrayFromSet_NoDup|]. split.
  - intros i. rewrite arrayFromSet_In, in_app_iff. reflexivity.
  - apply arrayFromSet_prefix.
Qed.

(** X8. Dropping the same store on the same folio a second time changes
    nothing. *)
Theorem dropToFolio_idempotent (storeId folioId : string) (c : Collection) :
  dropToFolio storeId folioId (dropToFolio storeId folioId c)
  = dropToFolio storeId folioId c.
Proof.
  unfold dropToFolio, updateFolio, set_folios. simpl. do 2 f_equal.
  rewrite List.map_map. apply List.map_ext. intros f.
  destruct (String.eqb (folio_id f) folioId) eqn:Hf; simpl; rewrite Hf; [|reflexivity].
  unfold set_storeIds. simpl. f_equal.
  apply arrayFromSet_snoc_present; [apply arrayFromSet_NoDup|].
  apply arrayFromSet_In, in_app_iff. simpl. tauto.
Qed.

(** X9. Removing a store from a folio, whether the folio holds it or
    not, leaves no reference to it in the folios of that id, and leaves
    every other id of those folios in place. Removing a store that was
    just dropped on a folio gives back the collection as it was,
    provided the collection has a folio list and the targeted folios
    listed their ids without duplicates and did not hold the store. *)
Theorem removeFromFolio_undoes_drop
    (storeId folioId : string) (c : Collection) :
  (∀ f, In f (default [] (folios (removeFromFolio storeId folioId c))) →
        folio_id f = folioId → ¬ In storeId (storeIds f))
  ∧ (∀ k f, default [] (folios c) !! k = Some f → folio_id f = folioId →
        ∃ f', default [] (folios (removeFromFolio storeId folioId c)) !! k = Some f'
              ∧ folio_id f' = folioId
              ∧ storeIds f'
                = List.filter (fun i => negb (String.eqb i storeId)) (storeIds f))
  ∧ (∀ fs, folios c = Some fs →
        (∀ f, In f fs → folio_id f = folioId →
              NoDup (storeIds f) ∧ ¬ In storeId (storeIds f)) →
        removeFromFolio storeId folioId (dropToFolio storeId folioId c) = c).
Proof.
  split; [|split].
  - intros f Hin Hid. unfold removeFromFolio in Hin. rewrite updateFolio_folios in Hin.
    apply in_map_iff in Hin as (f0 & Hf0 & _).
    destruct (String.eqb (folio_id f0) folioId) eqn:Heq.
    + subst f. simpl. rewrite List.filter_In, negb_true_iff, String.eqb_neq. tauto.
    + subst f. apply String.eqb_neq in Heq. contradiction.
  - intros k f Hk Hid. unfold removeFromFolio. rewrite updateFolio_folios.
    change (@List.map Folio Folio) with (@fmap list _ Folio Folio).
    rewrite list_lookup_fmap, Hk. simpl.
    apply String.eqb_eq in Hid. rewrite Hid. eexists. split; [reflexivity|].
    simpl. split; [apply String.eqb_eq, Hid|reflexivity].
  - intros fs Hfs Hclean.
    unfold removeFromFolio, dropToFolio, updateFolio. simpl. rewrite Hfs. simpl.
    rewrite List.map_map.
    assert (Hmap : List.map
      (fun f =>
         if String.eqb
              (folio_id (if String.eqb (folio_id f) folioId
                         then set_storeIds (arrayFromSet (storeIds f ++ [storeId])) f
                         else f)) folioId
         then set_storeIds
                (List.filter (fun i => negb (String.eqb i storeId))
                   (storeIds (if String.eqb (folio_id f) folioId
                              then set_storeIds (arrayFromSet (storeIds f ++ [storeId])) f
                              else f)))
                (if String.eqb (folio_id f) folioId
                 then set_storeIds (arrayFromSet (storeIds f ++ [storeId])) f
                 else f)
         else if String.eqb (folio_id f) folioId
              then set_storeIds (arrayFromSet (storeIds f ++ [storeId])) f
              else f) fs = fs).
    { rewrite <- (List.map_id fs) at 2. apply List.map_ext_in. intros f Hin.
      destruct (String.eqb (folio_id f) folioId) eqn:Hf; simpl; rewrite Hf; [|reflexivity].
      apply String.eqb_eq in Hf. destruct (Hclean f Hin Hf) as [Hnd Hno].
      rewrite arrayFromSet_NoDup_id by (apply NoDup_snoc; assumption).
      rewrite filter_snoc_absent by exact Hno.
      destruct f; reflexivity. }
    rewrite Hmap. destruct c; simpl in *. subst. reflexivity.
Qed.

Lemma removeFromFolio_undoes_drop_witness :
  removeFromFolio "p3" "f1" (dropToFolio "p3" "f1" sampleCollection) = sampleCollection
  ∧ ∃ f', default [] (folios (removeFromFolio "p1" "f1" sampleCollection)) !! 0%nat
          = Some f'
          ∧ folio_id f' = "f1" ∧ storeIds f' = ["p2"].
Proof.
  split.
  - apply (proj2 (proj2 (removeFromFolio_undoes_drop "p3" "f1" sampleCollection))
             [sampleFolio] eq_refl).
    intros f [<-|[]] _. split.
    + repeat constructor; rewrite list_elem_of_In; simpl; intuition discriminate.
    + simpl. intuition discriminate.
  - apply (proj1 (proj2 (removeFromFolio_undoes_drop "p1" "f1" sampleCollection))
             0%nat sampleFolio eq_refl eq_refl).
Defined.

(** X10. The folio handlers act on one folio at a time: the stores of
    the collection, the number of folios and every folio of another id
    are left as they are; deleting a folio removes the folios of that
    id and no other, and adding one appends an empty folio. *)
Theorem folio_edits_are_local
    (folioId : string) (g : Folio → Folio) (c : Collection) :
  stores (updateFolio folioId g c) = stores c
  ∧ length (default [] (folios (updateFolio folioId g c)))
    = length (default [] (folios c))
  ∧ (∀ k f, default [] (folios c) !! k = Some f → folio_id f ≠ folioId →
       default [] (folios (updateFolio folioId g c)) !! k = Some f)
  ∧ (∀ f, In f (default [] (folios (deleteFolio folioId c))) ↔
          In f (default [] (folios c)) ∧ folio_id f ≠ folioId)
  ∧ stores (deleteFolio folioId c) = stores c
  ∧ (∀ uuid now name theme,
       ∃ f, default [] (folios (folioAdd uuid now name theme c))
            = (default [] (folios c) ++ [f])%list
            ∧ folio_id f = uuid ∧ storeIds f = []
            ∧ stores (folioAdd uuid now name theme c) = stores c).
Proof.
  split; [reflexivity|]. split; [|split; [|split; [|split; [reflexivity|]]]].
  - rewrite updateFolio_folios. apply List.length_map.
  - intros k f Hk Hne. rewrite updateFolio_folios, list_lookup_fmap, Hk. simpl.
    apply String.eqb_neq in Hne. rewrite Hne. reflexivity.
  - intros f. simpl. rewrite List.filter_In, negb_true_iff, String.eqb_neq. reflexivity.
  - intros uuid now name theme. eexists. simpl. repeat split; reflexivity.
Qed.

Lemma folio_edits_are_local_witness :
  default [] (folios (clearFolio "other" sampleCollection)) !! 0%nat = Some sampleFolio.
Proof.
  apply (proj1 (proj2 (proj2 (folio_edits_are_local "other" (set_storeIds [])
                                 sampleCollection))) 0%nat sampleFolio eq_refl).
  discriminate.
Defined.

Lemma folio_add_keeps_ids_unique_witness :
  dropToFolio "p1" "f1" sampleCollection = bulkAddToFolio ["p1"] "f1" sampleCollection.
Proof.
  apply (proj1 (proj2 (folio_add_keeps_ids_unique [] "f1" sampleCollection))).
Defined.

(** ** Selection *)

(** X11. Toggling the selection of a store twice gives back the
    selection; one toggle changes the membership of that store and of
    no other. *)
Theorem toggleSelection_involutive (i : string) (prev : gset string) :
  toggleSelection i (toggleSelection i prev) = prev
  ∧ (i ∈ toggleSelection i prev ↔ i ∉ prev)
  ∧ (∀ j, j ≠ i → (j ∈ toggleSelection i prev ↔ j ∈ prev)).
Proof.
  unfold toggleSelection.
  destruct (bool_decide (i ∈ prev)) eqn:Hi.
  - apply bool_decide_eq_true in Hi.
    assert (Hout : bool_decide (i ∈ prev ∖ {[i]}) = false).
    { apply bool_decide_eq_false. rewrite elem_of_difference, elem_of_singleton. tauto. }
    rewrite Hout. split; [|split].
    + apply set_eq. intros j.
      rewrite elem_of_union, elem_of_difference, elem_of_singleton.
      destruct (decide (j = i)) as [->|Hj]; tauto.
    + rewrite elem_of_difference, elem_of_singleton. tauto.
    + intros j Hj. rewrite elem_of_difference, elem_of_singleton. tauto.
  - apply bool_decide_eq_false in Hi.
    assert (Hin : bool_decide (i ∈ prev ∪ {[i]}) = true).
    { apply bool_decide_eq_true. rewrite elem_of_union, elem_of_singleton. tauto. }
    rewrite Hin. split; [|split].
    + apply set_eq. intros j.
      rewrite elem_of_difference, elem_of_union, elem_of_singleton.
      destruct (decide (j = i)) as [->|Hj]; tauto.
    + rewrite elem_of_union, elem_of_singleton. tauto.
    + intros j Hj. rewrite elem_of_union, elem_of_singleton. tauto.
Qed.

(** ** The filter without facets, and filtering twice *)

Lemma filter_all {A} (p : A → bool) (l : list A) :
  (∀ x, In x l → p x = true) → List.filter p l = l.
Proof.
  induction l as [|x l IH]; simpl; intros Hall; [reflexivity|].
  rewrite (Hall x) by tauto. rewrite IH by (intros; apply Hall; tauto). reflexivity.
Qed.

Lemma sortBy_sorted_id {A} (cmp : A → A → Z) (l : list A) :
  Sorted (leBy cmp) l → sortBy cmp l = l.
Proof.
  induction 1 as [|x l _ IH Hhd]; simpl; [reflexivity|].
  rewrite IH. destruct Hhd as [|y l Hxy]; simpl; [reflexivity|].
  unfold leBy in Hxy. apply Z.leb_le in Hxy. rewrite Hxy. reflexivity.
Qed.

Section FilterComposition.
Context `{TF : TextFormatter} `{PM : PriceMapper} `{L10n : Localization}.

(** X12. When [hasActiveFilters] is false the filter keeps every store
    of the current archive view: the result is the sorted list of the
    stores whose archive flag equals the view flag. *)
Theorem no_active_filter_shows_whole_view (f : StoreFilters) :
  hasActiveFilters f = false →
  (∀ a s, storeMatches f a s = matchesArchive a s)
  ∧ (∀ l a, filterAndSort l f a
            = sortBy compareStores (List.filter (matchesArchive a) l)).
Proof.
  intros Hno. unfold hasActiveFilters in Hno.
  apply orb_false_iff in Hno as [Hno Hsearch].
  apply orb_false_iff in Hno as [Hno Hcf].
  apply orb_false_iff in Hno as [Hno Hprice].
  apply orb_false_iff in Hno as [Htags Hsale].
  assert (Hm : ∀ a s, storeMatches f a s = matchesArchive a s).
  { intros a s. unfold storeMatches.
    assert (Hq : search f = "") by (destruct (search f); [reflexivity|discriminate]).
    assert (Ht : filter_tags f = []) by (destruct (filter_tags f); [reflexivity|discriminate]).
    assert (Hp : priceRanges f = []) by (destruct (priceRanges f); [reflexivity|discriminate]).
    assert (Hc : matchesCustomFields (filter_customFields f) s = true).
    { unfold matchesCustomFields. apply forallb_forall. intros [field options] Hin.
      unfold matchesField, matchesFieldJs. simpl.
      assert (Hopt : (0 <? length options)%nat = false).
      { destruct (0 <? length options)%nat eqn:Hlen; [|reflexivity].
        assert (existsb (fun entry => (0 <? length (snd entry))%nat)
                  (map_to_list (filter_customFields f)) = true)
          by (apply existsb_exists; exists (field, options); auto).
        congruence. }
      destruct options; [reflexivity|discriminate]. }
    rewrite Hq, Ht, Hp, Hsale, Hc. simpl.
    destruct (matchesArchive a s); reflexivity. }
  split; [exact Hm|]. intros l a. unfold filterAndSort. f_equal.
  apply List.filter_ext. intros s. apply Hm.
Qed.

(** X13. The search query is read without regard to its case and to
    the white space around it, and a query of white space only is no
    query: the result is the one of the lower-cased, of the trimmed
    and, for a blank query, of the empty query. *)
Theorem search_query_is_normalised (l : list Store) (f : StoreFilters) (a : bool) :
  filterAndSort l (set_search (toLowerCase (search f)) f) a = filterAndSort l f a
  ∧ filterAndSort l (set_search (trim (search f)) f) a = filterAndSort l f a
  ∧ (trim (search f) = "" →
     filterAndSort l (set_search "" f) a = filterAndSort l f a).
Proof.
  assert (Hsame : ∀ q, toLowerCase (trim q) = toLowerCase (trim (search f)) →
            filterAndSort l (set_search q f) a = filterAndSort l f a).
  { intros q Hq. unfold filterAndSort. f_equal. apply List.filter_ext. intros s.
    unfold storeMatches. simpl. rewrite Hq. reflexivity. }
  split; [|split].
  - apply Hsame. rewrite trim_toLowerCase, toLowerCase_idem. reflexivity.
  - apply Hsame. rewrite trim_idem. reflexivity.
  - intros Hblank. apply Hsame. rewrite Hblank. reflexivity.
Qed.

(** X14. The tag facet compares tags as they are written, and the
    import stores tags lower-cased and trimmed: a facet tag with an
    upper-case letter or with white space around it matches no imported
    store. *)
Theorem imported_store_needs_normal_tag
    (uuid cid : string) (u : User) (row : ImportedStore)
    (l : list Store) (f : StoreFilters) (a : bool) (tg : string) :
  In tg (filter_tags f) →
  toLowerCase tg ≠ tg ∨ trim tg ≠ tg →
  ¬ In (importStore uuid cid u row) (filterAndSort l f a).
Proof.
  intros Htg Hraw Hin. apply filterAndSort_In in Hin as [_ Hm].
  apply storeMatches_clauses in Hm as (_ & _ & Ht & _).
  pose proof (proj1 (matchesTags_spec _ _) Ht tg Htg) as Hstored.
  simpl in Hstored. apply in_map_iff in Hstored as (x & <- & _).
  destruct Hraw as [Hlow|Htrim].
  - apply Hlow. rewrite <- trim_toLowerCase, toLowerCase_idem. reflexivity.
  - apply Htrim. apply trim_idem.
Qed.

Context `{NO : !NameOrder}.

(** X15. Filtering the result again with the same filter and view
    changes nothing, and the result holds exactly the matching stores,
    each as often as the input does. *)
Theorem filterAndSort_idempotent (l : list Store) (f : StoreFilters) (a : bool) :
  filterAndSort (filterAndSort l f a) f a = filterAndSort l f a
  ∧ Permutation (filterAndSort l f a) (List.filter (storeMatches f a) l).
Proof.
  split; [|apply sortBy_Permutation].
  unfold filterAndSort at 1.
  rewrite filter_all.
  - apply sortBy_sorted_id. apply sortBy_Sorted.
    intros x y. unfold leBy, compareStores. apply compare_total.
  - intros s Hs. apply filterAndSort_In in Hs. tauto.
Qed.

End FilterComposition.

Lemma no_active_filter_shows_whole_view_witness :
  refFilterAndSort sampleCatalogue noFilters true
  = sortBy (compareStores (TF:=Reference.textFormatter))
      (List.filter (matchesArchive true) sampleCatalogue).
Proof.
  apply (proj2 (no_active_filter_shows_whole_view (TF:=Reference.textFormatter)
                  (PM:=Reference.priceMapper) (L10n:=Reference.localization)
                  noFilters eq_refl)).
Defined.

Lemma imported_store_needs_normal_tag_witness :
  ¬ In (importStore (PM:=Reference.priceMapper) "n0" "c1" sampleUser importedRow)
      (refFilterAndSort
         [importStore (PM:=Reference.priceMapper) "n0" "c1" sampleUser importedRow]
         (set_filter_tags ["Vegan"] noFilters) false).
Proof.
  apply (imported_store_needs_normal_tag (TF:=Reference.textFormatter)
           (PM:=Reference.priceMapper) (L10n:=Reference.localization)
           "n0" "c1" sampleUser importedRow _ (set_filter_tags ["Vegan"] noFilters)
           false "Vegan").
  - simpl. tauto.
  - left. discriminate.
Defined.

Lemma filterAndSort_idempotent_witness :
  refFilterAndSort (refFilterAndSort sampleCatalogue noFilters false) noFilters false
  = refFilterAndSort sampleCatalogue noFilters false.
Proof.
  apply (proj1 (filterAndSort_idempotent (TF:=Reference.textFormatter)
                  (PM:=Reference.priceMapper) (L10n:=Reference.localization)
                  (NO:=reference_NameOrder) sampleCatalogue noFilters false)).
Defined.

(** ** Import and repeated enrichment *)

Section ImportAppend.
Context `{PM : PriceMapper} `{LM : Limits}.

Lemma fullStores_lookup (uuid : nat → string) (cid : string) (u : User)
    (rows : list ImportedStore) (k : nat) :
  fullStores uuid cid u rows !! k
  = (fun row => importStore (uuid k) cid u row) <$> rows !! k.
Proof. unfold fullStores. rewrite list_lookup_imap. reflexivity. Qed.

(** X16. An import in append mode never displaces a store the
    collection holds: while the collection is within its cap the
    existing stores stay in front, followed by as many imported rows as
    still fit, in the order of the file; the k-th row gets the k-th
    generated id. The folios are not touched in either mode. *)
Theorem import_appends_within_cap
    (uuid : nat → string) (cid : string) (u : User)
    (rows : list ImportedStore) (c : Collection) :
  (length (stores c) ≤ MAX_STORES_PER_COLLECTION)%nat →
  stores (importInto false uuid cid u rows c)
  = (stores c
     ++ firstn (MAX_STORES_PER_COLLECTION - length (stores c))
          (fullStores uuid cid u rows))%list
  ∧ ((length (stores c) + length rows ≤ MAX_STORES_PER_COLLECTION)%nat →
     stores (importInto false uuid cid u rows c)
     = (stores c ++ fullStores uuid cid u rows)%list)
  ∧ (∀ k row, rows !! k = Some row →
       fullStores uuid cid u rows !! k = Some (importStore (uuid k) cid u row))
  ∧ (∀ replace, folios (importInto replace uuid cid u rows c) = folios c).
Proof.
  intros Hcap.
  assert (Happ : stores (importInto false uuid cid u rows c)
    = (stores c ++ firstn (MAX_STORES_PER_COLLECTION - length (stores c))
                     (fullStores uuid cid u rows))%list).
  { unfold importInto. simpl. rewrite List.firstn_app.
    rewrite List.firstn_all2 by exact Hcap. reflexivity. }
  split; [exact Happ|]. split; [|split].
  - intros Hfit. rewrite Happ. f_equal. apply List.firstn_all2.
    unfold fullStores. rewrite length_imap. lia.
  - intros k row Hk. rewrite fullStores_lookup, Hk. reflexivity.
  - intros replace. reflexivity.
Qed.

End ImportAppend.

Lemma import_appends_within_cap_witness :
  List.map id
    (stores (importInto (PM:=Reference.priceMapper) (LM:=sampleLimits)
               false sampleUuid "c1" sampleUser [importedRow; importedRow] sampleCollection))
  = ["p1"; "p2"; "p3"; "n0"].
Proof.
  rewrite (proj1 (import_appends_within_cap (PM:=Reference.priceMapper)
                    (LM:=sampleLimits) sampleUuid "c1" sampleUser
                    [importedRow; importedRow] sampleCollection
                    ltac:(simpl; lia))).
  reflexivity.
Defined.

Section RepeatedEnrichment.
Context `{TF : TextFormatter}.

Lemma websiteEmpty_ext (a b : Store) :
  website a = website b → websiteEmpty a = websiteEmpty b.
Proof. unfold websiteEmpty. intros ->. reflexivity. Qed.

Lemma descEmpty_ext (a b : Store) :
  description a = description b → descEmpty a = descEmpty b.
Proof. unfold descEmpty. intros ->. reflexivity. Qed.

Lemma store_ext (s u : Store) :
  sameOtherFields s u → website u = website s → description u = description s →
  u = s.
Proof.
  destruct s, u. unfold sameOtherFields. simpl.
  intros (? & ? & ? & ? & ? & ? & ? & ? & ? & ? & ? & ? & ? & ? & ? & ?) ? ?.
  subst. reflexivity.
Qed.

Lemma mergeEnrichment_idempotent (s e : Store) :
  mergeEnrichment (mergeEnrichment s e) e = mergeEnrichment s e.
Proof.
  apply store_ext.
  - apply mergeEnrichment_frame.
  - rewrite (mergeEnrichment_website (mergeEnrichment s e) e).
    destruct (truthy (website e)) eqn:Ht; [|reflexivity]. simpl.
    destruct (websiteEmpty (mergeEnrichment s e)) eqn:Hu; [|reflexivity].
    rewrite mergeEnrichment_website, Ht. simpl.
    destruct (websiteEmpty s) eqn:Hs; [reflexivity|].
    rewrite (websiteEmpty_ext (mergeEnrichment s e) s) in Hu; [congruence|].
    rewrite mergeEnrichment_website, Ht, Hs. reflexivity.
  - rewrite (mergeEnrichment_description (mergeEnrichment s e) e).
    destruct (description e) as [d|] eqn:Hd; [|reflexivity].
    destruct (truthy (Some d)) eqn:Ht; [|reflexivity]. simpl.
    destruct (descEmpty (mergeEnrichment s e)) eqn:Hu; [|reflexivity].
    rewrite mergeEnrichment_description, Hd, Ht. simpl.
    destruct (descEmpty s) eqn:Hs; [reflexivity|].
    rewrite (descEmpty_ext (mergeEnrichment s e) s) in Hu; [congruence|].
    rewrite mergeEnrichment_description, Hd, Ht, Hs. reflexivity.
Qed.

(** X17. Applying the same enrichment result a second time changes
    nothing: the merge writes the enriched value, not a function of the
    stored one, so a field it filled is either kept or filled with the
    same value again. *)
Theorem enrichStores_idempotent (enrichedStores existing : list Store) :
  enrichStores enrichedStores (enrichStores enrichedStores existing)
  = enrichStores enrichedStores existing.
Proof.
  unfold enrichStores. rewrite List.map_map. apply List.map_ext. intros s.
  unfold enrichStore at 1.
  assert (Hid : id (enrichStore enrichedStores s) = id s).
  { unfold enrichStore. destruct (List.find _ enrichedStores) as [e|]; [|reflexivity].
    apply (mergeEnrichment_frame s e). }
  rewrite Hid. unfold enrichStore.
  destruct (List.find _ enrichedStores) as [e|]; [|reflexivity].
  apply mergeEnrichment_idempotent.
Qed.

End RepeatedEnrichment.

(** ** Splitting and joining *)

Lemma split_cons (sep : ascii) (s : string) :
  ∃ piece pieces, split sep s = piece :: pieces
                  ∧ ¬ In sep (list_ascii_of_string piece).
Proof.
  induction s as [|c s (piece & pieces & IH & Hfree)]; simpl.
  - exists EmptyString, []. split; [reflexivity|]. simpl. tauto.
  - destruct (Ascii.eqb_spec c sep) as [->|Hne].
    + exists EmptyString, (split sep s). split; [reflexivity|]. simpl. tauto.
    + rewrite IH. exists (String c piece), pieces. split; [reflexivity|].
      simpl. intros [Heq|Hin]; [congruence|tauto].
Qed.

Lemma join_split (sep : ascii) (s : string) :
  join (String sep EmptyString) (split sep s) = s.
Proof.
  induction s as [|c s IH]; [reflexivity|]. simpl split.
  destruct (split_cons sep s) as (piece & pieces & Hs & _).
  rewrite Hs in IH |- *.
  destruct (Ascii.eqb_spec c sep) as [->|Hne].
  - change (join (String sep EmptyString) (EmptyString :: piece :: pieces))
      with (String sep (join (String sep EmptyString) (piece :: pieces))).
    rewrite IH. reflexivity.
  - destruct pieces as [|p pieces].
    + simpl in IH |- *. rewrite IH. reflexivity.
    + change (join (String sep EmptyString) (String c piece :: p :: pieces))
        with (String c (join (String sep EmptyString) (piece :: p :: pieces))).
      rewrite IH. reflexivity.
Qed.

Lemma split_plain (sep : ascii) (x : string) :
  ¬ In sep (list_ascii_of_string x) → split sep x = [x].
Proof.
  induction x as [|c x IH]; simpl; [reflexivity|]. intros Hfree.
  destruct (Ascii.eqb_spec c sep) as [->|Hne]; [tauto|].
  rewrite IH by tauto. reflexivity.
Qed.

Lemma split_append_sep (sep : ascii) (x rest : string) :
  ¬ In sep (list_ascii_of_string x) →
  split sep (x ++ String sep rest) = x :: split sep rest.
Proof.
  induction x as [|c x IH]; simpl; intros Hfree.
  - rewrite Ascii.eqb_refl. reflexivity.
  - destruct (Ascii.eqb_spec c sep) as [->|Hne]; [tauto|].
    rewrite IH by tauto. reflexivity.
Qed.

Lemma split_join (sep : ascii) (l : list string) :
  l ≠ [] → Forall (fun x => ¬ In sep (list_ascii_of_string x)) l →
  split sep (join (String sep EmptyString) l) = l.
Proof.
  intros Hne Hall. induction Hall as [|x l Hx Hl IH]; [congruence|].
  destruct l as [|y l].
  - apply split_plain, Hx.
  - change (join (String sep EmptyString) (x :: y :: l))
      with (x ++ String sep (join (String sep EmptyString) (y :: l))).
    rewrite split_append_sep by exact Hx. rewrite IH by discriminate. reflexivity.
Qed.

Lemma trimEnd_app_space (x : string) : trimEnd (x ++ " ") = trimEnd x.
Proof.
  induction x as [|c x IH]; [reflexivity|]. simpl. rewrite IH. reflexivity.
Qed.

Lemma trim_app_space (s : string) : trim (s ++ " ") = trim s.
Proof.
  unfold trim. induction s as [|c s IH]; [reflexivity|]. simpl.
  destruct (isWhiteSpace c); [exact IH|].
  apply (trimEnd_app_space (String c s)).
Qed.

(** X18. The first and last name of a new profile are the display name
    cut at its first space: joined by a space they give the display name
    back, the first name holds no space, and the user name stamped on
    the stores the user adds is the trimmed display name. *)
Theorem profile_names_give_back_display_name (uid : string) (displayName : option string) :
  join " " (namesOf displayName) = displayNameOf displayName
  ∧ (if (1 <? length (namesOf displayName))%nat
     then firstNameOf displayName ++ " " ++ lastNameOf displayName
     else firstNameOf displayName) = displayNameOf displayName
  ∧ ¬ In " "%char (list_ascii_of_string (firstNameOf displayName))
  ∧ userName (newProfile uid displayName) = trim (displayNameOf displayName).
Proof.
  pose proof (join_split " " (displayNameOf displayName)) as Hjoin.
  unfold userName, newProfile, firstNameOf, lastNameOf, namesOf in *. simpl.
  destruct (split_cons " " (displayNameOf displayName)) as (piece & pieces & Hs & Hfree).
  rewrite Hs in Hjoin |- *. simpl.
  split; [exact Hjoin|].
  destruct pieces as [|p pieces]; simpl in Hjoin |- *.
  - subst piece. repeat split; [exact Hfree|].
    apply (trim_app_space (displayNameOf displayName)).
  - repeat split; [exact Hjoin|exact Hfree|]. rewrite <- Hjoin. reflexivity.
Qed.

Lemma profile_names_give_back_display_name_example :
  newProfile "u7" (Some "Ada King Lovelace")
  = {| userId := "u7"; firstName := "Ada"; lastName := "King Lovelace" |}.
Proof. reflexivity. Qed.

(** ** The filter state in the address bar *)

Lemma find_key_filter_other (k k' : string) (p : URLSearchParams) :
  k ≠ k' →
  List.find (fun e => String.eqb (fst e) k)
    (List.filter (fun e => negb (String.eqb (fst e) k')) p)
  = List.find (fun e => String.eqb (fst e) k) p.
Proof.
  intros Hne. induction p as [|e p IH]; simpl; [reflexivity|].
  destruct (String.eqb_spec (fst e) k') as [He|He]; simpl.
  - rewrite IH. destruct (String.eqb_spec (fst e) k); [congruence|reflexivity].
  - destruct (String.eqb (fst e) k); [reflexivity|exact IH].
Qed.

Lemma paramsGet_set_eq (k v : string) (p : URLSearchParams) :
  paramsGet k (paramsSet k v p) = Some v.
Proof.
  unfold paramsGet. induction p as [|e p IH]; simpl.
  - rewrite String.eqb_refl. reflexivity.
  - destruct (String.eqb (fst e) k) eqn:He; simpl.
    + rewrite String.eqb_refl. reflexivity.
    + rewrite He. exact IH.
Qed.

Lemma paramsGet_set_ne (k k' v : string) (p : URLSearchParams) :
  k ≠ k' → paramsGet k (paramsSet k' v p) = paramsGet k p.
Proof.
  intros Hne. unfold paramsGet. induction p as [|e p IH]; simpl.
  - destruct (String.eqb_spec k' k); [congruence|reflexivity].
  - destruct (String.eqb_spec (fst e) k') as [He|He]; simpl.
    + destruct (String.eqb_spec k' k); [congruence|].
      destruct (String.eqb_spec (fst e) k); [congruence|].
      rewrite find_key_filter_other by exact Hne. reflexivity.
    + destruct (String.eqb (fst e) k); [reflexivity|exact IH].
Qed.

Lemma In_paramsSet (k v k' v' : string) (p : URLSearchParams) :
  In (k, v) (paramsSet k' v' p) → (k = k' ∧ v = v') ∨ In (k, v) p.
Proof.
  induction p as [|e p IH]; simpl.
  - intros [[= <- <-]|[]]. tauto.
  - destruct (String.eqb (fst e) k'); simpl.
    + intros [[= <- <-]|Hin]; [tauto|].
      apply List.filter_In in Hin. tauto.
    + intros [->|Hin]; [tauto|]. destruct (IH Hin); tauto.
Qed.

Lemma prefix_cfKey (field : string) : String.prefix "cf_" (cfKey field) = true.
Proof.
  unfold cfKey. simpl. destruct (whitespaceToUnderscore (toLowerCase field)); reflexivity.
Qed.

(** The custom-field entries written by the synchronisation effect. *)
Lemma customField_params_keys
    (entries : list (string * list string)) (p : URLSearchParams) (k v : string) :
  In (k, v)
    (List.fold_left
       (fun (q : URLSearchParams) (e : string * list string) =>
          if (0 <? length (snd e))%nat
          then paramsSet (cfKey (fst e)) (join "," (snd e)) q else q)
       entries p) →
  In (k, v) p
  ∨ ∃ original values, In (original, values) entries ∧ values ≠ []
                        ∧ k = cfKey original.
Proof.
  revert p. induction entries as [|[o vs] entries IH]; simpl; intros p Hin; [tauto|].
  destruct (IH _ Hin) as [Hp|(o' & vs' & Ho & Hvs & Hk)].
  - destruct vs as [|v0 vs]; simpl in Hp; [tauto|].
    apply In_paramsSet in Hp as [[-> _]|Hp]; [|tauto].
    right. exists o, (v0 :: vs). split; [tauto|]. split; [discriminate|reflexivity].
  - right. exists o', vs'. tauto.
Qed.

Lemma customField_params_other_key
    (entries : list (string * list string)) (p : URLSearchParams) (k : string) :
  String.prefix "cf_" k = false →
  paramsGet k
    (List.fold_left
       (fun (q : URLSearchParams) (e : string * list string) =>
          if (0 <? length (snd e))%nat
          then paramsSet (cfKey (fst e)) (join "," (snd e)) q else q)
       entries p)
  = paramsGet k p.
Proof.
  intros Hk. revert p. induction entries as [|[o vs] entries IH]; simpl; intros p;
    [reflexivity|].
  rewrite IH. destruct (0 <? length vs)%nat; [|reflexivity].
  apply paramsGet_set_ne. intros ->. rewrite prefix_cfKey in Hk. discriminate Hk.
Qed.

Lemma filterBoolean_plain (l : list string) :
  Forall plainValue l → filterBoolean l = l.
Proof.
  intros Hall. apply filter_all. intros x Hx.
  rewrite List.Forall_forall in Hall. destruct (Hall x Hx) as [Hne _].
  apply truthy_Some, Hne.
Qed.

Lemma splitValues_join (l : list string) :
  l ≠ [] → Forall plainValue l → splitValues (join "," l) = l.
Proof.
  intros Hne Hall. unfold splitValues.
  rewrite (split_join ","%char l Hne).
  - apply filterBoolean_plain, Hall.
  - eapply List.Forall_impl; [|exact Hall]. intros x [_ Hx]. exact Hx.
Qed.

(** X19. The filter written to the address bar and read back has the
    same search text and sale flag, and the same tags and price buckets
    whenever none of them is empty or holds a comma. *)
Theorem url_restores_simple_facets
    (entries : list (string * list string)) (f : StoreFilters) :
  search (getInitialFiltersFromUrl (filtersToParams entries f)) = search f
  ∧ filter_onSale (getInitialFiltersFromUrl (filtersToParams entries f))
    = filter_onSale f
  ∧ (Forall plainValue (filter_tags f) →
     filter_tags (getInitialFiltersFromUrl (filtersToParams entries f))
     = filter_tags f)
  ∧ (Forall plainValue (priceRanges f) →
     priceRanges (getInitialFiltersFromUrl (filtersToParams entries f))
     = priceRanges f).
Proof.
  unfold getInitialFiltersFromUrl, filtersToParams. simpl.
  rewrite !customField_params_other_key by reflexivity.
  destruct (search f) as [|c q]; destruct (filter_tags f) as [|tg tgs];
    destruct (filter_onSale f); destruct (priceRanges f) as [|b bs];
    cbn [truthy length Nat.ltb Nat.leb];
    rewrite ?paramsGet_set_eq;
    repeat (rewrite paramsGet_set_ne by discriminate; rewrite ?paramsGet_set_eq);
    repeat split; try reflexivity;
    intros Hall; apply splitValues_join; (discriminate || exact Hall).
Qed.

Lemma url_restores_simple_facets_witness :
  filter_tags
    (getInitialFiltersFromUrl
       (filtersToParams [] (set_filter_tags ["vegan"; "sale"] highOnly)))
  = ["vegan"; "sale"].
Proof.
  apply (proj1 (proj2 (proj2 (url_restores_simple_facets []
                                (set_filter_tags ["vegan"; "sale"] highOnly))))).
  repeat constructor; simpl; intuition discriminate.
Defined.

Lemma lowerChar_underscore (c : ascii) :
  lowerChar (if Ascii.eqb c "_" then " "%char else c)
  = (if Ascii.eqb (lowerChar c) "_" then " "%char else lowerChar c).
Proof. all_code_units c. Qed.

Lemma underscoresToSpaces_toLowerCase (s : string) :
  toLowerCase (underscoresToSpaces s) = underscoresToSpaces (toLowerCase s).
Proof.
  induction s as [|c s IH]; simpl; [reflexivity|].
  rewrite lowerChar_underscore, IH. reflexivity.
Qed.

Lemma whitespaceToUnderscore_toLowerCase (s : string) :
  toLowerCase (whitespaceToUnderscore s) = whitespaceToUnderscore (toLowerCase s).
Proof.
  induction s as [|c s IH]; [reflexivity|].
  destruct s as [|c' s'].
  - simpl. rewrite isWhiteSpace_lowerChar. destruct (isWhiteSpace c); reflexivity.
  - remember (String c' s') as r eqn:Hr.
    change (toLowerCase (String c r)) with (String (lowerChar c) (toLowerCase r)).
    assert (Hstep : ∀ a t, whitespaceToUnderscore (String a (String c' t))
       = if isWhiteSpace a
         then if isWhiteSpace c' then whitespaceToUnderscore (String c' t)
              else String "_" (whitespaceToUnderscore (String c' t))
         else String a (whitespaceToUnderscore (String c' t))) by reflexivity.
    assert (Hstep' : ∀ a t, whitespaceToUnderscore (String a (String (lowerChar c') t))
       = if isWhiteSpace a
         then if isWhiteSpace (lowerChar c')
              then whitespaceToUnderscore (String (lowerChar c') t)
              else String "_" (whitespaceToUnderscore (String (lowerChar c') t))
         else String a (whitespaceToUnderscore (String (lowerChar c') t))) by reflexivity.
    assert (Hlow : toLowerCase r = String (lowerChar c') (toLowerCase s'))
      by (subst r; reflexivity).
    rewrite Hr at 1. rewrite Hstep, <- Hr.
    rewrite Hlow at 1. rewrite Hstep', <- Hlow.
    rewrite !isWhiteSpace_lowerChar.
    destruct (isWhiteSpace c), (isWhiteSpace c');
      try exact IH; simpl; rewrite IH; reflexivity.
Qed.

Lemma underscoresToSpaces_free (s : string) :
  ¬ In "_"%char (list_ascii_of_string (underscoresToSpaces s)).
Proof.
  induction s as [|c s IH]; simpl; [tauto|].
  intros [Heq|Hin]; [|tauto].
  destruct (Ascii.eqb_spec c "_"); [discriminate|congruence].
Qed.

Lemma cfFieldName_cfKey (field : string) :
  cfFieldName (cfKey field)
  = underscoresToSpaces (whitespaceToUnderscore (toLowerCase field)).
Proof. reflexivity. Qed.

Lemma decoded_customField_source
    (params : URLSearchParams) (acc : gmap string (list string)) (field : string) :
  is_Some
    (List.fold_left
       (fun (cf : gmap string (list string)) (e : string * string) =>
          if String.prefix "cf_" (fst e)
          then <[cfFieldName (fst e) := splitValues (snd e)]> cf
          else cf)
       params acc !! field) →
  is_Some (acc !! field)
  ∨ ∃ k v, In (k, v) params ∧ String.prefix "cf_" k = true ∧ field = cfFieldName k.
Proof.
  revert acc. induction params as [|[k v] params IH]; simpl; intros acc Hsome; [tauto|].
  destruct (IH _ Hsome) as [Hacc|(k' & v' & Hin & Hpre & Hf)].
  - destruct (String.prefix "cf_" k) eqn:Hk; [|tauto].
    apply lookup_insert_is_Some in Hacc as [Heq|[_ Hacc]]; [|tauto].
    right. exists k, v. auto.
  - right. exists k', v'. auto.
Qed.

(** X20. A custom-field facet read back from the address bar carries
    the name in the form the address bar keeps: lower-cased, with every
    run of white space and every underscore turned into one space. So
    the name read back is lower-case and free of underscores, and a
    field name with an upper-case letter or an underscore does not come
    back as it was. *)
Theorem url_customField_names_are_normalised
    (entries : list (string * list string)) (f : StoreFilters) (field : string) :
  is_Some (filter_customFields
             (getInitialFiltersFromUrl (filtersToParams entries f)) !! field) →
  toLowerCase field = field
  ∧ ¬ In "_"%char (list_ascii_of_string field)
  ∧ ∃ original values,
      In (original, values) entries ∧ values ≠ []
      ∧ field = underscoresToSpaces (whitespaceToUnderscore (toLowerCase original)).
Proof.
  intros Hsome. unfold getInitialFiltersFromUrl in Hsome. simpl in Hsome.
  apply decoded_customField_source in Hsome as [Hempty|(k & v & Hin & Hpre & ->)].
  { rewrite lookup_empty in Hempty. destruct Hempty as [? [=]]. }
  unfold filtersToParams in Hin.
  apply customField_params_keys in Hin as [Hbase|(o & vs & Ho & Hvs & ->)].
  - exfalso.
    destruct (truthy (Some (search f))), (0 <? length (filter_tags f))%nat,
      (filter_onSale f), (0 <? length (priceRanges f))%nat;
      repeat (apply In_paramsSet in Hbase as [[-> _]|Hbase];
              [discriminate Hpre|]);
      destruct Hbase.
  - rewrite cfFieldName_cfKey. split; [|split].
    + rewrite underscoresToSpaces_toLowerCase, whitespaceToUnderscore_toLowerCase,
        toLowerCase_idem. reflexivity.
    + apply underscoresToSpaces_free.
    + exists o, vs. auto.
Qed.

Lemma url_customField_names_are_normalised_witness :
  ¬ is_Some (filter_customFields
               (getInitialFiltersFromUrl
                  (filtersToParams [("Material", ["Leather"])] noFilters))
             !! "Material").
Proof.
  intros Hsome.
  destruct (url_customField_names_are_normalised _ _ _ Hsome) as [Hlow _].
  discriminate Hlow.
Defined.

Example url_customField_comes_back_lower_case :
  filter_customFields
    (getInitialFiltersFromUrl (filtersToParams [("Material", ["Leather"])] noFilters))
  !! "material" = Some ["Leather"].
Proof. vm_compute. reflexivity. Qed.

(** ** Guards *)

Section Guards.
Context `{TF : TextFormatter}.

(** X21. Without a signed-in user, or without an active collection, no
    handler changes any collection: the store and folio handlers, the
    enrichment, the bulk delete and the add all leave the list of
    collections as it is. *)
Theorem handlers_need_user_and_collection (st : AppState) :
  user st = None ∨ activeCollection st = None →
  (∀ g, collections (onActiveCollection g st) = collections st)
  ∧ (∀ i, collections (handleDeleteStore i st) = collections st)
  ∧ (∀ s, collections (handleEditStore s st) = collections st)
  ∧ (∀ i b, collections (handleArchiveStore i b st) = collections st)
  ∧ collections (handleBulkDelete st) = collections st
  ∧ (∀ uuid p, collections (handleAddStore uuid p st) = collections st)
  ∧ (∀ e, collections (handleEnrichComplete e st) = collections st).
Proof.
  intros Hguard.
  assert (Hsave : ∀ g, collections (onActiveCollection g st) = collections st).
  { intros g. unfold onActiveCollection.
    destruct (activeCollection st) as [c|] eqn:Hact; [|reflexivity].
    destruct Hguard as [Hu|Hno]; [|discriminate].
    rewrite saveCollection_no_user by exact Hu. reflexivity. }
  split; [exact Hsave|]. repeat split.
  - intros i. apply (Hsave (deleteStore i)).
  - intros s. apply (Hsave (editStore s)).
  - intros i b. apply (Hsave (archiveStore i b)).
  - pose proof (Hsave (bulkDelete (selectedStoreIds st))) as Hb.
    unfold handleBulkDelete. unfold onActiveCollection in Hb.
    destruct (activeCollection st); [exact Hb|reflexivity].
  - intros uuid p. unfold handleAddStore.
    destruct (activeCollection st) as [c|]; [|reflexivity].
    destruct (user st) as [u|] eqn:Hu; [|reflexivity].
    destruct Hguard; discriminate.
  - intros e.
    pose proof (Hsave (fun c => set_stores (enrichStores e (stores c)) c)) as He.
    unfold handleEnrichComplete. unfold onActiveCollection in He.
    destruct (activeCollection st); [exact He|reflexivity].
Qed.

End Guards.

Lemma handlers_need_user_and_collection_witness :
  collections (handleBulkDelete (set_activeCollectionId None sampleState))
  = collections sampleState.
Proof.
  apply (proj1 (proj2 (proj2 (proj2 (proj2
          (handlers_need_user_and_collection (TF:=Reference.textFormatter)
             (set_activeCollectionId None sampleState) (or_intror eq_refl))))))).
Defined.

Lemma search_query_is_normalised_witness :
  refFilterAndSort sampleCatalogue (set_search "" (set_search "   " noFilters)) false
  = refFilterAndSort sampleCatalogue (set_search "   " noFilters) false.
Proof.
  apply (proj2 (proj2 (search_query_is_normalised (TF:=Reference.textFormatter)
                         (PM:=Reference.priceMapper) (L10n:=Reference.localization)
                         sampleCatalogue (set_search "   " noFilters) false))).
  reflexivity.
Defined.

(** ** The error path of the custom-field read *)

Section FilterErrors.
Context `{TF : TextFormatter} `{PM : PriceMapper} `{L10n : Localization}.


End FilterErrors.

